(** * Gimbal subsystem: yaw/pitch positioning controller

    Shallow embedding of [gimbal::GimbalSubsystem]
    (src/subsystems/gimbal/gimbal_subsystem.cpp) and the properties its
    specification states about it.

    Numeric model.  The C++ [float] fields and the [double] constants
    [M_PI] and [M_TWOPI] are read as real numbers: arithmetic is exact and
    every value is finite.  Rounding, NaN and infinities are outside the
    model.  The millisecond clock is a 32-bit unsigned integer, modelled as
    a [Z] with its wrap-around written out.

    Configuration.  The gain, threshold and scale constants live in a
    header outside this file; they are the fields of [GIMBAL_CONSTANTS] and
    every property is stated for an arbitrary configuration, with the
    assumption it needs on a constant spelled out as a hypothesis.

    Collaborators.  The motor driver, the speed controller (PID) and the
    status LEDs belong to the framework; they appear here through the
    interface the subsystem uses:
    - a motor is its sensor readings plus the output last handed to
      [setDesiredOutput], together with the history of those calls;
    - the speed controller is an abstract type with [runController] and
      [getOutput] (class [SpeedController]);
    - the clock sample of a cycle is an argument of [initialize] and
      [refresh]. *)

From Stdlib Require Import Reals Lra Lia ZArith Bool List.
Import ListNotations.
Local Open Scope R_scope.

(** ** Numbers *)

(** [a < b] on floats, as a boolean test. *)
Definition Rltb (a b : R) : bool :=
  if Rlt_dec a b then true else false.

Infix "<?" := Rltb (at level 70, no associativity) : R_scope.

Definition M_PI : R := PI.
Definition M_TWOPI : R := 2 * PI.

(** Modelled from the spec: [tap::algorithms::limitVal] is the framework's
    clamp; values outside the range are saturated to the bound. *)
Definition limitVal (val min max : R) : R :=
  if val <? min then min
  else if max <? val then max
  else val.

(** The clamp of the specification, written with [Rmax] and [Rmin]. *)
Definition clamp (x lo hi : R) : R := Rmax lo (Rmin x hi).

(** [uint32_t] arithmetic of the millisecond clock. *)
Definition wrap_u32 (z : Z) : Z := (z mod 2 ^ 32)%Z.

(** ** Motor driver interface *)

(** Modelled from the spec: [tap::motor::DjiMotor::ENC_RESOLUTION], the
    encoder's counts per revolution (8192). *)
Definition ENC_RESOLUTION : Z := 8192.

Record DjiMotor : Type := mkMotor {
  isMotorOnline : bool;       (* isMotorOnline() *)
  getEncoderWrapped : Z;      (* getEncoderWrapped() *)
  getMotorRPM : R;            (* measured shaft speed *)
  desiredOutput : R;          (* value of the last setDesiredOutput call *)
  commandLog : list R         (* every setDesiredOutput call, latest first *)
}.

Definition setDesiredOutput (v : R) (m : DjiMotor) : DjiMotor :=
  mkMotor (isMotorOnline m) (getEncoderWrapped m) (getMotorRPM m)
          v (v :: commandLog m).

(** Registration with the CAN handler; none of the modelled fields move. *)
Definition motorInitialize (m : DjiMotor) : DjiMotor := m.

(** What the hardware reports between two calls of the subsystem: the
    readings change, the commanded output does not. *)
Definition motorReport (online : bool) (enc : Z) (rpm : R) (m : DjiMotor)
  : DjiMotor :=
  mkMotor online enc rpm (desiredOutput m) (commandLog m).

(** ** Speed controller interface *)

Class SpeedController (P : Type) : Type := {
  runController : P -> R -> R -> Z -> P;
  getOutput : P -> R
}.

(** ** Configuration constants ([constants.X] in the source) *)

Record GIMBAL_CONSTANTS : Type := mkConstants {
  MOTOR_SPEED_FACTOR : R;
  YAW_SCALE : R;
  PITCH_SCALE : R;
  MAX_YAW_ERROR : R;
  YAW_MINIMUM_RADS : R;
  PITCH_MINIMUM_RADS : R;
  MIN_YAW_SPEED : R;
  MAX_YAW_SPEED : R;
  MIN_PITCH_SPEED : R;
  MAX_PITCH_SPEED : R;
  STARTING_PITCH : R;
  LEVEL_ANGLE : R;
  GRAVITY_COMPENSATION_SCALAR : R
}.

(** ** The subsystem *)

Section Gimbal.

Context {P : Type} {pid : SpeedController P}.

Record GimbalSubsystem : Type := mkGimbal {
  yawMotor : DjiMotor;
  pitchMotor : DjiMotor;
  yawMotorPid : P;
  pitchMotorPid : P;
  targetYaw : R;
  targetPitch : R;
  currentYaw : R;
  currentPitch : R;
  currentYawMotorSpeed : R;
  currentPitchMotorSpeed : R;
  startingYaw : R;
  startingPitch : R;
  startingYawEncoder : R;
  startingPitchEncoder : R;
  yawError : R;
  pitchError : R;
  yawMotorOutput : R;
  pitchMotorOutput : R;
  pastTime : Z;
  timeError : Z;
  inputsFound : bool;
  imuYaw : R;
  imuPitch : R;
  ledA : bool;
  ledH : bool
}.

(** Field assignments. *)

Definition set_yawMotor (v : DjiMotor) (g : GimbalSubsystem) : GimbalSubsystem :=
  mkGimbal
    v (pitchMotor g) (yawMotorPid g) (pitchMotorPid g) (targetYaw g)
    (targetPitch g) (currentYaw g) (currentPitch g) (currentYawMotorSpeed g)
    (currentPitchMotorSpeed g) (startingYaw g) (startingPitch g)
    (startingYawEncoder g) (startingPitchEncoder g) (yawError g)
    (pitchError g) (yawMotorOutput g) (pitchMotorOutput g) (pastTime g)
    (timeError g) (inputsFound g) (imuYaw g) (imuPitch g) (ledA g) (ledH g).

Definition set_pitchMotor (v : DjiMotor) (g : GimbalSubsystem) : GimbalSubsystem :=
  mkGimbal
    (yawMotor g) v (yawMotorPid g) (pitchMotorPid g) (targetYaw g)
    (targetPitch g) (currentYaw g) (currentPitch g) (currentYawMotorSpeed g)
    (currentPitchMotorSpeed g) (startingYaw g) (startingPitch g)
    (startingYawEncoder g) (startingPitchEncoder g) (yawError g)
    (pitchError g) (yawMotorOutput g) (pitchMotorOutput g) (pastTime g)
    (timeError g) (inputsFound g) (imuYaw g) (imuPitch g) (ledA g) (ledH g).

Definition set_yawMotorPid (v : P) (g : GimbalSubsystem) : GimbalSubsystem :=
  mkGimbal
    (yawMotor g) (pitchMotor g) v (pitchMotorPid g) (targetYaw g)
    (targetPitch g) (currentYaw g) (currentPitch g) (currentYawMotorSpeed g)
    (currentPitchMotorSpeed g) (startingYaw g) (startingPitch g)
    (startingYawEncoder g) (startingPitchEncoder g) (yawError g)
    (pitchError g) (yawMotorOutput g) (pitchMotorOutput g) (pastTime g)
    (timeError g) (inputsFound g) (imuYaw g) (imuPitch g) (ledA g) (ledH g).

Definition set_pitchMotorPid (v : P) (g : GimbalSubsystem) : GimbalSubsystem :=
  mkGimbal
    (yawMotor g) (pitchMotor g) (yawMotorPid g) v (targetYaw g)
    (targetPitch g) (currentYaw g) (currentPitch g) (currentYawMotorSpeed g)
    (currentPitchMotorSpeed g) (startingYaw g) (startingPitch g)
    (startingYawEncoder g) (startingPitchEncoder g) (yawError g)
    (pitchError g) (yawMotorOutput g) (pitchMotorOutput g) (pastTime g)
    (timeError g) (inputsFound g) (imuYaw g) (imuPitch g) (ledA g) (ledH g).

Definition set_targetYaw (v : R) (g : GimbalSubsystem) : GimbalSubsystem :=
  mkGimbal
    (yawMotor g) (pitchMotor g) (yawMotorPid g) (pitchMotorPid g) v
    (targetPitch g) (currentYaw g) (currentPitch g) (currentYawMotorSpeed g)
    (currentPitchMotorSpeed g) (startingYaw g) (startingPitch g)
    (startingYawEncoder g) (startingPitchEncoder g) (yawError g)
    (pitchError g) (yawMotorOutput g) (pitchMotorOutput g) (pastTime g)
    (timeError g) (inputsFound g) (imuYaw g) (imuPitch g) (ledA g) (ledH g).

Definition set_targetPitch (v : R) (g : GimbalSubsystem) : GimbalSubsystem :=
  mkGimbal
    (yawMotor g) (pitchMotor g) (yawMotorPid g) (pitchMotorPid g)
    (targetYaw g) v (currentYaw g) (currentPitch g) (currentYawMotorSpeed g)
    (currentPitchMotorSpeed g) (startingYaw g) (startingPitch g)
    (startingYawEncoder g) (startingPitchEncoder g) (yawError g)
    (pitchError g) (yawMotorOutput g) (pitchMotorOutput g) (pastTime g)
    (timeError g) (inputsFound g) (imuYaw g) (imuPitch g) (ledA g) (ledH g).

Definition set_currentYaw (v : R) (g : GimbalSubsystem) : GimbalSubsystem :=
  mkGimbal
    (yawMotor g) (pitchMotor g) (yawMotorPid g) (pitchMotorPid g)
    (targetYaw g) (targetPitch g) v (currentPitch g) (currentYawMotorSpeed g)
    (currentPitchMotorSpeed g) (startingYaw g) (startingPitch g)
    (startingYawEncoder g) (startingPitchEncoder g) (yawError g)
    (pitchError g) (yawMotorOutput g) (pitchMotorOutput g) (pastTime g)
    (timeError g) (inputsFound g) (imuYaw g) (imuPitch g) (ledA g) (ledH g).

Definition set_currentPitch (v : R) (g : GimbalSubsystem) : GimbalSubsystem :=
  mkGimbal
    (yawMotor g) (pitchMotor g) (yawMotorPid g) (pitchMotorPid g)
    (targetYaw g) (targetPitch g) (currentYaw g) v (currentYawMotorSpeed g)
    (currentPitchMotorSpeed g) (startingYaw g) (startingPitch g)
    (startingYawEncoder g) (startingPitchEncoder g) (yawError g)
    (pitchError g) (yawMotorOutput g) (pitchMotorOutput g) (pastTime g)
    (timeError g) (inputsFound g) (imuYaw g) (imuPitch g) (ledA g) (ledH g).

Definition set_currentYawMotorSpeed (v : R) (g : GimbalSubsystem) : GimbalSubsystem :=
  mkGimbal
    (yawMotor g) (pitchMotor g) (yawMotorPid g) (pitchMotorPid g)
    (targetYaw g) (targetPitch g) (currentYaw g) (currentPitch g) v
    (currentPitchMotorSpeed g) (startingYaw g) (startingPitch g)
    (startingYawEncoder g) (startingPitchEncoder g) (yawError g)
    (pitchError g) (yawMotorOutput g) (pitchMotorOutput g) (pastTime g)
    (timeError g) (inputsFound g) (imuYaw g) (imuPitch g) (ledA g) (ledH g).

Definition set_currentPitchMotorSpeed (v : R) (g : GimbalSubsystem) : GimbalSubsystem :=
  mkGimbal
    (yawMotor g) (pitchMotor g) (yawMotorPid g) (pitchMotorPid g)
    (targetYaw g) (targetPitch g) (currentYaw g) (currentPitch g)
    (currentYawMotorSpeed g) v (startingYaw g) (startingPitch g)
    (startingYawEncoder g) (startingPitchEncoder g) (yawError g)
    (pitchError g) (yawMotorOutput g) (pitchMotorOutput g) (pastTime g)
    (timeError g) (inputsFound g) (imuYaw g) (imuPitch g) (ledA g) (ledH g).

Definition set_startingYaw (v : R) (g : GimbalSubsystem) : GimbalSubsystem :=
  mkGimbal
    (yawMotor g) (pitchMotor g) (yawMotorPid g) (pitchMotorPid g)
    (targetYaw g) (targetPitch g) (currentYaw g) (currentPitch g)
    (currentYawMotorSpeed g) (currentPitchMotorSpeed g) v (startingPitch g)
    (startingYawEncoder g) (startingPitchEncoder g) (yawError g)
    (pitchError g) (yawMotorOutput g) (pitchMotorOutput g) (pastTime g)
    (timeError g) (inputsFound g) (imuYaw g) (imuPitch g) (ledA g) (ledH g).

Definition set_startingPitch (v : R) (g : GimbalSubsystem) : GimbalSubsystem :=
  mkGimbal
    (yawMotor g) (pitchMotor g) (yawMotorPid g) (pitchMotorPid g)
    (targetYaw g) (targetPitch g) (currentYaw g) (currentPitch g)
    (currentYawMotorSpeed g) (currentPitchMotorSpeed g) (startingYaw g) v
    (startingYawEncoder g) (startingPitchEncoder g) (yawError g)
    (pitchError g) (yawMotorOutput g) (pitchMotorOutput g) (pastTime g)
    (timeError g) (inputsFound g) (imuYaw g) (imuPitch g) (ledA g) (ledH g).

Definition set_startingYawEncoder (v : R) (g : GimbalSubsystem) : GimbalSubsystem :=
  mkGimbal
    (yawMotor g) (pitchMotor g) (yawMotorPid g) (pitchMotorPid g)
    (targetYaw g) (targetPitch g) (currentYaw g) (currentPitch g)
    (currentYawMotorSpeed g) (currentPitchMotorSpeed g) (startingYaw g)
    (startingPitch g) v (startingPitchEncoder g) (yawError g) (pitchError g)
    (yawMotorOutput g) (pitchMotorOutput g) (pastTime g) (timeError g)
    (inputsFound g) (imuYaw g) (imuPitch g) (ledA g) (ledH g).

Definition set_startingPitchEncoder (v : R) (g : GimbalSubsystem) : GimbalSubsystem :=
  mkGimbal
    (yawMotor g) (pitchMotor g) (yawMotorPid g) (pitchMotorPid g)
    (targetYaw g) (targetPitch g) (currentYaw g) (currentPitch g)
    (currentYawMotorSpeed g) (currentPitchMotorSpeed g) (startingYaw g)
    (startingPitch g) (startingYawEncoder g) v (yawError g) (pitchError g)
    (yawMotorOutput g) (pitchMotorOutput g) (pastTime g) (timeError g)
    (inputsFound g) (imuYaw g) (imuPitch g) (ledA g) (ledH g).

Definition set_yawError (v : R) (g : GimbalSubsystem) : GimbalSubsystem :=
  mkGimbal
    (yawMotor g) (pitchMotor g) (yawMotorPid g) (pitchMotorPid g)
    (targetYaw g) (targetPitch g) (currentYaw g) (currentPitch g)
    (currentYawMotorSpeed g) (currentPitchMotorSpeed g) (startingYaw g)
    (startingPitch g) (startingYawEncoder g) (startingPitchEncoder g) v
    (pitchError g) (yawMotorOutput g) (pitchMotorOutput g) (pastTime g)
    (timeError g) (inputsFound g) (imuYaw g) (imuPitch g) (ledA g) (ledH g).

Definition set_pitchError (v : R) (g : GimbalSubsystem) : GimbalSubsystem :=
  mkGimbal
    (yawMotor g) (pitchMotor g) (yawMotorPid g) (pitchMotorPid g)
    (targetYaw g) (targetPitch g) (currentYaw g) (currentPitch g)
    (currentYawMotorSpeed g) (currentPitchMotorSpeed g) (startingYaw g)
    (startingPitch g) (startingYawEncoder g) (startingPitchEncoder g)
    (yawError g) v (yawMotorOutput g) (pitchMotorOutput g) (pastTime g)
    (timeError g) (inputsFound g) (imuYaw g) (imuPitch g) (ledA g) (ledH g).

Definition set_yawMotorOutput (v : R) (g : GimbalSubsystem) : GimbalSubsystem :=
  mkGimbal
    (yawMotor g) (pitchMotor g) (yawMotorPid g) (pitchMotorPid g)
    (targetYaw g) (targetPitch g) (currentYaw g) (currentPitch g)
    (currentYawMotorSpeed g) (currentPitchMotorSpeed g) (startingYaw g)
    (startingPitch g) (startingYawEncoder g) (startingPitchEncoder g)
    (yawError g) (pitchError g) v (pitchMotorOutput g) (pastTime g)
    (timeError g) (inputsFound g) (imuYaw g) (imuPitch g) (ledA g) (ledH g).

Definition set_pitchMotorOutput (v : R) (g : GimbalSubsystem) : GimbalSubsystem :=
  mkGimbal
    (yawMotor g) (pitchMotor g) (yawMotorPid g) (pitchMotorPid g)
    (targetYaw g) (targetPitch g) (currentYaw g) (currentPitch g)
    (currentYawMotorSpeed g) (currentPitchMotorSpeed g) (startingYaw g)
    (startingPitch g) (startingYawEncoder g) (startingPitchEncoder g)
    (yawError g) (pitchError g) (yawMotorOutput g) v (pastTime g)
    (timeError g) (inputsFound g) (imuYaw g) (imuPitch g) (ledA g) (ledH g).

Definition set_pastTime (v : Z) (g : GimbalSubsystem) : GimbalSubsystem :=
  mkGimbal
    (yawMotor g) (pitchMotor g) (yawMotorPid g) (pitchMotorPid g)
    (targetYaw g) (targetPitch g) (currentYaw g) (currentPitch g)
    (currentYawMotorSpeed g) (currentPitchMotorSpeed g) (startingYaw g)
    (startingPitch g) (startingYawEncoder g) (startingPitchEncoder g)
    (yawError g) (pitchError g) (yawMotorOutput g) (pitchMotorOutput g) v
    (timeError g) (inputsFound g) (imuYaw g) (imuPitch g) (ledA g) (ledH g).

Definition set_timeError (v : Z) (g : GimbalSubsystem) : GimbalSubsystem :=
  mkGimbal
    (yawMotor g) (pitchMotor g) (yawMotorPid g) (pitchMotorPid g)
    (targetYaw g) (targetPitch g) (currentYaw g) (currentPitch g)
    (currentYawMotorSpeed g) (currentPitchMotorSpeed g) (startingYaw g)
    (startingPitch g) (startingYawEncoder g) (startingPitchEncoder g)
    (yawError g) (pitchError g) (yawMotorOutput g) (pitchMotorOutput g)
    (pastTime g) v (inputsFound g) (imuYaw g) (imuPitch g) (ledA g) (ledH g).

Definition set_inputsFound (v : bool) (g : GimbalSubsystem) : GimbalSubsystem :=
  mkGimbal
    (yawMotor g) (pitchMotor g) (yawMotorPid g) (pitchMotorPid g)
    (targetYaw g) (targetPitch g) (currentYaw g) (currentPitch g)
    (currentYawMotorSpeed g) (currentPitchMotorSpeed g) (startingYaw g)
    (startingPitch g) (startingYawEncoder g) (startingPitchEncoder g)
    (yawError g) (pitchError g) (yawMotorOutput g) (pitchMotorOutput g)
    (pastTime g) (timeError g) v (imuYaw g) (imuPitch g) (ledA g) (ledH g).

Definition set_imuYaw (v : R) (g : GimbalSubsystem) : GimbalSubsystem :=
  mkGimbal
    (yawMotor g) (pitchMotor g) (yawMotorPid g) (pitchMotorPid g)
    (targetYaw g) (targetPitch g) (currentYaw g) (currentPitch g)
    (currentYawMotorSpeed g) (currentPitchMotorSpeed g) (startingYaw g)
    (startingPitch g) (startingYawEncoder g) (startingPitchEncoder g)
    (yawError g) (pitchError g) (yawMotorOutput g) (pitchMotorOutput g)
    (pastTime g) (timeError g) (inputsFound g) v (imuPitch g) (ledA g)
    (ledH g).

Definition set_imuPitch (v : R) (g : GimbalSubsystem) : GimbalSubsystem :=
  mkGimbal
    (yawMotor g) (pitchMotor g) (yawMotorPid g) (pitchMotorPid g)
    (targetYaw g) (targetPitch g) (currentYaw g) (currentPitch g)
    (currentYawMotorSpeed g) (currentPitchMotorSpeed g) (startingYaw g)
    (startingPitch g) (startingYawEncoder g) (startingPitchEncoder g)
    (yawError g) (pitchError g) (yawMotorOutput g) (pitchMotorOutput g)
    (pastTime g) (timeError g) (inputsFound g) (imuYaw g) v (ledA g) (ledH g).

Definition set_ledA (v : bool) (g : GimbalSubsystem) : GimbalSubsystem :=
  mkGimbal
    (yawMotor g) (pitchMotor g) (yawMotorPid g) (pitchMotorPid g)
    (targetYaw g) (targetPitch g) (currentYaw g) (currentPitch g)
    (currentYawMotorSpeed g) (currentPitchMotorSpeed g) (startingYaw g)
    (startingPitch g) (startingYawEncoder g) (startingPitchEncoder g)
    (yawError g) (pitchError g) (yawMotorOutput g) (pitchMotorOutput g)
    (pastTime g) (timeError g) (inputsFound g) (imuYaw g) (imuPitch g) v
    (ledH g).

Definition set_ledH (v : bool) (g : GimbalSubsystem) : GimbalSubsystem :=
  mkGimbal
    (yawMotor g) (pitchMotor g) (yawMotorPid g) (pitchMotorPid g)
    (targetYaw g) (targetPitch g) (currentYaw g) (currentPitch g)
    (currentYawMotorSpeed g) (currentPitchMotorSpeed g) (startingYaw g)
    (startingPitch g) (startingYawEncoder g) (startingPitchEncoder g)
    (yawError g) (pitchError g) (yawMotorOutput g) (pitchMotorOutput g)
    (pastTime g) (timeError g) (inputsFound g) (imuYaw g) (imuPitch g)
    (ledA g) v.

Variable constants : GIMBAL_CONSTANTS.

(** Modelled from the spec: the header's inline accessors.  [yawOnline] and
    [pitchOnline] report the driver's online state, [getYawMotorRPM] and
    [getPitchMotorRPM] the motor's measured speed, and [setYawAngle] and
    [setPitchAngle] store the new target. *)
Definition yawOnline (g : GimbalSubsystem) : bool :=
  isMotorOnline (yawMotor g).
Definition pitchOnline (g : GimbalSubsystem) : bool :=
  isMotorOnline (pitchMotor g).
Definition getYawMotorRPM (g : GimbalSubsystem) : R :=
  getMotorRPM (yawMotor g).
Definition getPitchMotorRPM (g : GimbalSubsystem) : R :=
  getMotorRPM (pitchMotor g).
Definition setYawAngle (angle : R) (g : GimbalSubsystem) : GimbalSubsystem :=
  set_targetYaw angle g.
Definition setPitchAngle (angle : R) (g : GimbalSubsystem) : GimbalSubsystem :=
  set_targetPitch angle g.

Definition setIMU (yaw pitch : R) (g : GimbalSubsystem) : GimbalSubsystem :=
  let g := set_imuYaw yaw g in
  set_imuPitch pitch g.

(** Takes a wrapped encoder value and turns it into radians. *)
Definition wrappedEncoderValueToRadians (encoderValue : Z) : R :=
  (M_TWOPI * IZR encoderValue) / IZR ENC_RESOLUTION.

(** [initialize()]; [now] is the clock sample it takes. *)
Definition initialize (now : Z) (g : GimbalSubsystem) : GimbalSubsystem :=
  let g := set_pastTime now g in
  let g := setIMU 0 (STARTING_PITCH constants + LEVEL_ANGLE constants) g in
  let g := set_yawMotor (motorInitialize (yawMotor g)) g in
  let g := set_yawMotor (setDesiredOutput 0 (yawMotor g)) g in
  let g := set_pitchMotor (motorInitialize (pitchMotor g)) g in
  let g := set_pitchMotor (setDesiredOutput 0 (pitchMotor g)) g in
  let currentPitchEncoder := getEncoderWrapped (pitchMotor g) in
  let currentYawEncoder := getEncoderWrapped (yawMotor g) in
  let g := set_startingPitchEncoder
             (wrappedEncoderValueToRadians currentPitchEncoder) g in
  let g := set_startingYawEncoder
             (wrappedEncoderValueToRadians currentYawEncoder) g in
  let g := set_startingPitch (startingPitchEncoder g) g in
  let g := set_startingYaw (startingYawEncoder g) g in
  let g := set_currentYaw (startingYaw g) g in
  let g := set_currentPitch (startingPitch g) g in
  let g := set_targetYaw (startingYaw g) g in
  set_targetPitch (startingPitch g) g.

(** [gravityCompensation()]: the feed-forward term of the pitch axis. *)
Definition gravityCompensation (g : GimbalSubsystem) : R :=
  let limitAngle :=
    limitVal (currentPitch g - LEVEL_ANGLE constants) (- M_PI) M_PI in
  GRAVITY_COMPENSATION_SCALAR constants * cos limitAngle.

(** [updateYawPid()] *)
Definition updateYawPid (g : GimbalSubsystem) : GimbalSubsystem :=
  let g := set_yawError (targetYaw g - currentYaw g) g in
  let g :=
    if MAX_YAW_ERROR constants <? yawError g
    then set_yawError (yawError g - M_TWOPI) g
    else if yawError g <? - MAX_YAW_ERROR constants
    then set_yawError (yawError g + M_TWOPI) g
    else g in
  if (- YAW_MINIMUM_RADS constants <? yawError g)
     && (yawError g <? YAW_MINIMUM_RADS constants)
  then set_yawMotor (setDesiredOutput 0 (yawMotor g)) g
  else
    let g := set_yawMotorPid
               (runController (yawMotorPid g)
                  (yawError g * MOTOR_SPEED_FACTOR constants)
                  (getYawMotorRPM g)
                  (timeError g)) g in
    let g := set_yawMotorOutput
               (limitVal (getOutput (yawMotorPid g))
                  (- MAX_YAW_SPEED constants)
                  (MAX_YAW_SPEED constants)) g in
    if (- MIN_YAW_SPEED constants <? yawMotorOutput g)
       && (yawMotorOutput g <? MIN_YAW_SPEED constants)
    then set_yawMotorOutput 0 g
    else g (* the setDesiredOutput call is commented out in the source *).

(** [updatePitchPid()] *)
Definition updatePitchPid (g : GimbalSubsystem) : GimbalSubsystem :=
  let g := set_pitchError (targetPitch g - currentPitch g) g in
  let g := set_pitchMotorPid
             (runController (pitchMotorPid g)
                (pitchError g * MOTOR_SPEED_FACTOR constants)
                (getPitchMotorRPM g)
                (timeError g)) g in
  let g :=
    if (- PITCH_MINIMUM_RADS constants <? pitchError g)
       && (pitchError g <? PITCH_MINIMUM_RADS constants)
    then set_pitchMotorOutput 0 g
    else set_pitchMotorOutput
           (limitVal (getOutput (pitchMotorPid g))
              (- MAX_PITCH_SPEED constants)
              (MAX_PITCH_SPEED constants)) g in
  let g := set_pitchMotorOutput (pitchMotorOutput g + gravityCompensation g) g in
  if (- MIN_PITCH_SPEED constants <? pitchMotorOutput g)
     && (pitchMotorOutput g <? MIN_PITCH_SPEED constants)
  then set_pitchMotorOutput 0 g
  else set_pitchMotor (setDesiredOutput (pitchMotorOutput g) (pitchMotor g)) g.

(** [refresh()]; [currentTime] is the clock sample of the cycle. *)
Definition refresh (currentTime : Z) (g : GimbalSubsystem) : GimbalSubsystem :=
  let g := set_timeError (wrap_u32 (currentTime - pastTime g)) g in
  let g := set_pastTime currentTime g in
  let g := set_ledA (negb (yawOnline g)) g in
  let g := set_ledH (negb (pitchOnline g)) g in
  if inputsFound g then
    let g :=
      if isMotorOnline (yawMotor g) then
        let g := set_currentYawMotorSpeed (getYawMotorRPM g) g in
        let currentYawEncoder := getEncoderWrapped (yawMotor g) in
        let g := set_currentYaw
                   (wrappedEncoderValueToRadians currentYawEncoder) g in
        updateYawPid g
      else g in
    if isMotorOnline (pitchMotor g) then
      let g := set_currentPitchMotorSpeed (getPitchMotorRPM g) g in
      let currentPitchEncoder := getEncoderWrapped (pitchMotor g) in
      let g := set_currentPitch
                 (wrappedEncoderValueToRadians currentPitchEncoder) g in
      updatePitchPid g
    else g
  else
    let g := set_targetPitch (currentPitch g) g in
    set_targetYaw (currentYaw g) g.

(** [controllerInput()]: called through the remote control input. *)
Definition controllerInput (yawInput pitchInput : R) (g : GimbalSubsystem)
  : GimbalSubsystem :=
  let g := setYawAngle (targetYaw g + yawInput * YAW_SCALE constants) g in
  let g := setPitchAngle (targetPitch g + pitchInput * PITCH_SCALE constants) g in
  set_inputsFound true g.

(** [cvInput()]: offset angles sent by the vision pipeline. *)
Definition cvInput (yawInput pitchInput : R) (g : GimbalSubsystem)
  : GimbalSubsystem :=
  let yawInput := limitVal yawInput (- M_TWOPI) M_TWOPI in
  let pitchInput := limitVal pitchInput (- M_TWOPI) M_TWOPI in
  let g := setYawAngle (currentYaw g + yawInput) g in
  let g := setPitchAngle (currentPitch g + pitchInput) g in
  set_inputsFound true g.

(** [noInputs()] *)
Definition noInputs (g : GimbalSubsystem) : GimbalSubsystem :=
  let g := set_inputsFound false g in
  let g := set_pitchMotor (setDesiredOutput 0 (pitchMotor g)) g in
  set_yawMotor (setDesiredOutput 0 (yawMotor g)) g.

(** ** Runs of the subsystem *)

(** What can happen to the subsystem between construction and now: its
    public methods are called from the control thread, and the two motors
    report new readings. *)
Inductive Event : Type :=
| EvInitialize (now : Z)
| EvRefresh (now : Z)
| EvControllerInput (yawInput pitchInput : R)
| EvCvInput (yawInput pitchInput : R)
| EvNoInputs
| EvYawReport (online : bool) (enc : Z) (rpm : R)
| EvPitchReport (online : bool) (enc : Z) (rpm : R).

Definition step (g : GimbalSubsystem) (e : Event) : GimbalSubsystem :=
  match e with
  | EvInitialize now => initialize now g
  | EvRefresh now => refresh now g
  | EvControllerInput y p => controllerInput y p g
  | EvCvInput y p => cvInput y p g
  | EvNoInputs => noInputs g
  | EvYawReport online enc rpm =>
      set_yawMotor (motorReport online enc rpm (yawMotor g)) g
  | EvPitchReport online enc rpm =>
      set_pitchMotor (motorReport online enc rpm (pitchMotor g)) g
  end.

Definition run (g : GimbalSubsystem) (es : list Event) : GimbalSubsystem :=
  fold_left step es g.

Definition isReport (e : Event) : bool :=
  match e with
  | EvYawReport _ _ _ | EvPitchReport _ _ _ => true
  | _ => false
  end.

(** ** Properties named by the specification *)

(** The error dead-zone test of either axis. *)
Definition inDeadband (bound x : R) : Prop := - bound < x < bound.

(** The shorter way round between two angles of [[0, 2 pi)]. *)
Definition angularDistance (a b : R) : R :=
  Rmin (Rabs (a - b)) (2 * PI - Rabs (a - b)).

(** The pitch output [updatePitchPid] has computed when it reaches its
    output dead-band test: the clamped controller output, or zero inside
    the error dead-zone, plus the gravity term. *)
Definition pitchCommand (g : GimbalSubsystem) : R :=
  let err := targetPitch g - currentPitch g in
  let ctl := runController (pitchMotorPid g)
               (err * MOTOR_SPEED_FACTOR constants)
               (getPitchMotorRPM g) (timeError g) in
  (if (- PITCH_MINIMUM_RADS constants <? err)
      && (err <? PITCH_MINIMUM_RADS constants)
   then 0
   else limitVal (getOutput ctl)
          (- MAX_PITCH_SPEED constants) (MAX_PITCH_SPEED constants))
  + gravityCompensation g.

(** While no input source is active, both drivers hold a zero command. *)
Definition idleOutputsZero (g : GimbalSubsystem) : Prop :=
  inputsFound g = false ->
  desiredOutput (yawMotor g) = 0 /\ desiredOutput (pitchMotor g) = 0.

End Gimbal.

Arguments GimbalSubsystem P : clear implicits.

(** ** A concrete configuration, used to run the model *)

(** A speed controller whose output is the target speed it was last given. *)
#[export] Instance EchoController : SpeedController R := {
  runController _ targetSpeed _ _ := targetSpeed;
  getOutput p := p
}.

Definition exampleConstants : GIMBAL_CONSTANTS := {|
  MOTOR_SPEED_FACTOR := 100;
  YAW_SCALE := 1;
  PITCH_SCALE := 1;
  MAX_YAW_ERROR := PI;
  YAW_MINIMUM_RADS := 1 / 2;
  PITCH_MINIMUM_RADS := 1 / 2;
  MIN_YAW_SPEED := 10;
  MAX_YAW_SPEED := 1000;
  MIN_PITCH_SPEED := 10;
  MAX_PITCH_SPEED := 1000;
  STARTING_PITCH := 0;
  LEVEL_ANGLE := 0;
  GRAVITY_COMPENSATION_SCALAR := 20
|}.

Definition idleMotor : DjiMotor := mkMotor true 0 0 0 [].

(** The object as the constructor leaves it, both motors online at encoder
    reading 0. *)
Definition constructed : GimbalSubsystem R :=
  mkGimbal idleMotor idleMotor 0 0 0 0 0 0 0 0 0 0 0 0 0 0 0 0
           0%Z 0%Z false 0 0 false false.

(** Yaw target and current angle on either side of the wrap boundary. *)
Definition wrapExample : GimbalSubsystem R :=
  set_targetYaw 6 (set_currentYaw (1 / 2) constructed).

(** Start-up, a vision offset on pitch, one control cycle. *)
Definition trackingTrace : list Event :=
  [EvInitialize 0; EvCvInput 0 1; EvRefresh 10].

(** The same, after which the pitch motor drops off the bus. *)
Definition pitchDropout : GimbalSubsystem R :=
  run exampleConstants constructed (trackingTrace ++ [EvPitchReport false 0 0]).

(** Start-up, one stick deflection on yaw, then loss of the input source. *)
Definition inputLost : GimbalSubsystem R :=
  run exampleConstants constructed
      [EvInitialize 0; EvControllerInput 1 0; EvNoInputs].


(** ** Vocabulary of the further properties *)

(** An angle of one turn, as the encoder conversion produces it. *)
Definition angleInRange (a : R) : Prop := 0 <= a < 2 * PI.

(** A wrapped encoder reading: a count within one revolution. *)
Definition encoderInRange (enc : Z) : bool :=
  ((0 <=? enc) && (enc <? ENC_RESOLUTION))%Z.

(** Every reading a report event carries is a wrapped encoder value. *)
Definition reportInRange (e : Event) : bool :=
  match e with
  | EvYawReport _ enc _ | EvPitchReport _ enc _ => encoderInRange enc
  | _ => true
  end.

Definition isInitialize (e : Event) : bool :=
  match e with
  | EvInitialize _ => true
  | _ => false
  end.

(** The input flag as the sequence of calls alone determines it. *)
Definition flagAfter (flag : bool) (es : list Event) : bool :=
  fold_left
    (fun b e =>
       match e with
       | EvControllerInput _ _ | EvCvInput _ _ => true
       | EvNoInputs => false
       | _ => b
       end)
    es flag.

(** What the pitch axis consists of: its motor, its controller, its two
    angles and the values its loop computes. *)
Definition pitchAxis {P : Type} (g : GimbalSubsystem P)
  : DjiMotor * P * (R * R) * (R * R * R) :=
  (pitchMotor g, pitchMotorPid g, (targetPitch g, currentPitch g),
   (currentPitchMotorSpeed g, pitchError g, pitchMotorOutput g)).

(** The state the pitch loop of a cycle runs on when nothing but the pitch
    axis is looked at: fresh time step, fresh pitch speed and angle. *)
Definition pitchSensed {P : Type} (now : Z) (g : GimbalSubsystem P)
  : GimbalSubsystem P :=
  set_currentPitch
    (wrappedEncoderValueToRadians (getEncoderWrapped (pitchMotor g)))
    (set_currentPitchMotorSpeed (getMotorRPM (pitchMotor g))
       (set_timeError (wrap_u32 (now - pastTime g)) g)).

(** Both encoder readings are wrapped values and both measured angles lie
    in one turn. *)
Definition readingsInRange {P : Type} (g : GimbalSubsystem P) : Prop :=
  encoderInRange (getEncoderWrapped (yawMotor g)) = true /\
  encoderInRange (getEncoderWrapped (pitchMotor g)) = true /\
  angleInRange (currentYaw g) /\
  angleInRange (currentPitch g).

(** The yaw axis, likewise. *)
Definition yawAxis {P : Type} (g : GimbalSubsystem P)
  : DjiMotor * P * (R * R) * (R * R * R) :=
  (yawMotor g, yawMotorPid g, (targetYaw g, currentYaw g),
   (currentYawMotorSpeed g, yawError g, yawMotorOutput g)).

Definition yawSensed {P : Type} (now : Z) (g : GimbalSubsystem P)
  : GimbalSubsystem P :=
  set_currentYaw
    (wrappedEncoderValueToRadians (getEncoderWrapped (yawMotor g)))
    (set_currentYawMotorSpeed (getMotorRPM (yawMotor g))
       (set_timeError (wrap_u32 (now - pastTime g)) g)).

(** A state whose last cycle ran just before the millisecond clock rolls
    over. *)
Definition beforeRollover : GimbalSubsystem R :=
  set_pastTime (2 ^ 32 - 5) constructed.

(** The constructed object with an input source active. *)
Definition activeExample : GimbalSubsystem R :=
  set_inputsFound true constructed.

(** Yaw on target, with the error of an earlier cycle still stored and the
    motor still holding an earlier output. *)
Definition staleYawExample : GimbalSubsystem R :=
  set_yawError 1 (set_yawMotor (mkMotor true 0 0 55 [55]) constructed).

(** * Proofs *)

(** ** Comparisons and clamping *)

Lemma Rltb_true (a b : R) : a < b -> (a <? b) = true.
Proof. unfold Rltb; destruct (Rlt_dec a b); intuition. Qed.

Lemma Rltb_false (a b : R) : b <= a -> (a <? b) = false.
Proof. unfold Rltb; destruct (Rlt_dec a b); intuition lra. Qed.

Lemma Rltb_spec (a b : R) : reflect (a < b) (a <? b).
Proof. unfold Rltb; destruct (Rlt_dec a b); constructor; assumption. Qed.

Lemma inDeadband_test (bound x : R) :
  (- bound <? x) && (x <? bound) = true <-> inDeadband bound x.
Proof.
  unfold inDeadband.
  destruct (Rltb_spec (- bound) x), (Rltb_spec x bound); simpl;
    intuition (try discriminate; try lra).
Qed.

Lemma inDeadband_Rabs (bound x : R) : inDeadband bound x <-> Rabs x < bound.
Proof.
  unfold inDeadband; split; intro H.
  - apply Rabs_def1; lra.
  - apply Rabs_def2 in H; lra.
Qed.

Lemma limitVal_clamp (x lo hi : R) : lo <= hi -> limitVal x lo hi = clamp x lo hi.
Proof.
  intro Hle; unfold limitVal, clamp.
  destruct (Rltb_spec x lo), (Rltb_spec hi x);
    unfold Rmin; destruct (Rle_dec x hi);
    unfold Rmax; destruct (Rle_dec lo _); lra.
Qed.

Lemma limitVal_range (x lo hi : R) : lo <= hi -> lo <= limitVal x lo hi <= hi.
Proof.
  intro Hle; unfold limitVal.
  destruct (Rltb_spec x lo), (Rltb_spec hi x); lra.
Qed.

Lemma limitVal_inside (x lo hi : R) : lo <= x <= hi -> limitVal x lo hi = x.
Proof.
  intro Hin; unfold limitVal.
  destruct (Rltb_spec x lo), (Rltb_spec hi x); lra.
Qed.

(** ** Angles modulo one turn *)

Lemma Rabs_le_between (a b : R) : Rabs a <= b -> - b <= a <= b.
Proof. unfold Rabs; destruct (Rcase_abs a); lra. Qed.

(** Among all angles congruent to [e] modulo 2 pi, one of magnitude at most pi
    is a shortest one. *)
Lemma shortest_representative (e : R) (m : Z) :
  Rabs e <= PI -> Rabs e <= Rabs (e + IZR m * (2 * PI)).
Proof.
  intro He.
  pose proof PI_RGT_0 as Hpi.
  assert (Hle : - PI <= e <= PI) by (apply Rabs_le_between; exact He).
  destruct (Z.eq_dec m 0) as [-> | Hm].
  - replace (e + 0 * (2 * PI)) with e by lra. lra.
  - assert (Hcases : (1 <= m)%Z \/ (m <= -1)%Z) by lia.
    destruct Hcases as [Hpos | Hneg].
    + apply IZR_le in Hpos.
      assert (PI <= e + IZR m * (2 * PI)) by nra.
      rewrite (Rabs_right (e + _)) by lra. lra.
    + apply IZR_le in Hneg.
      assert (e + IZR m * (2 * PI) <= - PI) by nra.
      rewrite (Rabs_left1 (e + _)) by lra. lra.
Qed.

(** ** Proof steps shared by the method lemmas *)

(** Case analysis on the tests of a method body, innermost test first. *)
Ltac split_tests :=
  repeat match goal with
         | |- context [if ?b then _ else _] =>
             lazymatch b with
             | context [if _ then _ else _] => fail
             | _ => destruct b eqn:?; cbn
             end
         end.

(** Reading a field off a chain of field assignments. *)
Ltac gsimpl :=
  cbn [
      yawMotor pitchMotor yawMotorPid pitchMotorPid targetYaw targetPitch
      currentYaw currentPitch currentYawMotorSpeed currentPitchMotorSpeed
      startingYaw startingPitch startingYawEncoder startingPitchEncoder
      yawError pitchError yawMotorOutput pitchMotorOutput pastTime timeError
      inputsFound imuYaw imuPitch ledA ledH set_yawMotor set_pitchMotor
      set_yawMotorPid set_pitchMotorPid set_targetYaw set_targetPitch
      set_currentYaw set_currentPitch set_currentYawMotorSpeed
      set_currentPitchMotorSpeed set_startingYaw set_startingPitch
      set_startingYawEncoder set_startingPitchEncoder set_yawError
      set_pitchError set_yawMotorOutput set_pitchMotorOutput set_pastTime
      set_timeError set_inputsFound set_imuYaw set_imuPitch set_ledA set_ledH
      setYawAngle setPitchAngle setIMU isMotorOnline getEncoderWrapped
      getMotorRPM desiredOutput commandLog setDesiredOutput motorReport
      motorInitialize
  ].

Section GimbalProofs.

Context {P : Type} {pid : SpeedController P}.
Variable constants : GIMBAL_CONSTANTS.

(** ** Yaw loop *)

(** The yaw error [updateYawPid] leaves in [yawError]: the raw difference,
    moved by one turn when it lies beyond [MAX_YAW_ERROR]. *)
Lemma updateYawPid_yawError (g : GimbalSubsystem P) :
  yawError (updateYawPid constants g) =
  let d := targetYaw g - currentYaw g in
  if MAX_YAW_ERROR constants <? d then d - M_TWOPI
  else if d <? - MAX_YAW_ERROR constants then d + M_TWOPI
  else d.
Proof.
  unfold updateYawPid; cbn.
  destruct (MAX_YAW_ERROR constants <? _); cbn.
  2: destruct (_ <? - MAX_YAW_ERROR constants); cbn.
  all: repeat match goal with
       | |- context [if ?b then _ else _] => destruct b; cbn
       end; reflexivity.
Qed.

(** *** What [updateYawPid] does, by case *)

Lemma updateYawPid_deadzone (g : GimbalSubsystem P) :
  inDeadband (YAW_MINIMUM_RADS constants) (yawError (updateYawPid constants g)) ->
  yawMotor (updateYawPid constants g) = setDesiredOutput 0 (yawMotor g) /\
  yawMotorPid (updateYawPid constants g) = yawMotorPid g /\
  yawMotorOutput (updateYawPid constants g) = yawMotorOutput g.
Proof.
  rewrite <- inDeadband_test.
  unfold updateYawPid; cbn.
  split_tests; intros; try congruence; auto.
Qed.

Lemma updateYawPid_tracking (g : GimbalSubsystem P) :
  ~ inDeadband (YAW_MINIMUM_RADS constants) (yawError (updateYawPid constants g)) ->
  yawMotor (updateYawPid constants g) = yawMotor g /\
  yawMotorPid (updateYawPid constants g) =
    runController (yawMotorPid g)
      (yawError (updateYawPid constants g) * MOTOR_SPEED_FACTOR constants)
      (getYawMotorRPM g) (timeError g).
Proof.
  rewrite <- inDeadband_test.
  unfold updateYawPid; cbn.
  split_tests; intros; try congruence; auto.
Qed.

(** *** What [updatePitchPid] does, by case *)

Lemma updatePitchPid_controller (g : GimbalSubsystem P) :
  pitchError (updatePitchPid constants g) = targetPitch g - currentPitch g /\
  pitchMotorPid (updatePitchPid constants g) =
    runController (pitchMotorPid g)
      ((targetPitch g - currentPitch g) * MOTOR_SPEED_FACTOR constants)
      (getPitchMotorRPM g) (timeError g).
Proof.
  unfold updatePitchPid; cbn.
  split_tests; auto.
Qed.

Lemma updatePitchPid_suppressed (g : GimbalSubsystem P) :
  inDeadband (MIN_PITCH_SPEED constants) (pitchCommand constants g) ->
  pitchMotor (updatePitchPid constants g) = pitchMotor g /\
  pitchMotorOutput (updatePitchPid constants g) = 0.
Proof.
  rewrite <- inDeadband_test.
  unfold updatePitchPid, pitchCommand, gravityCompensation, getPitchMotorRPM; cbn.
  split_tests; intros; try congruence; auto.
Qed.

Lemma updatePitchPid_commanded (g : GimbalSubsystem P) :
  ~ inDeadband (MIN_PITCH_SPEED constants) (pitchCommand constants g) ->
  pitchMotor (updatePitchPid constants g) =
    setDesiredOutput (pitchCommand constants g) (pitchMotor g) /\
  pitchMotorOutput (updatePitchPid constants g) = pitchCommand constants g.
Proof.
  rewrite <- inDeadband_test.
  unfold updatePitchPid, pitchCommand, gravityCompensation, getPitchMotorRPM; cbn.
  split_tests; intros; try congruence; auto.
Qed.

(** Every command [updateYawPid] gives the motor is zero. *)
Lemma updateYawPid_motor (g : GimbalSubsystem P) :
  yawMotor (updateYawPid constants g) = yawMotor g \/
  yawMotor (updateYawPid constants g) = setDesiredOutput 0 (yawMotor g).
Proof.
  unfold updateYawPid; cbn. split_tests; auto.
Qed.

(** [updatePitchPid] commands the motor only with an output outside the
    dead-band of [MIN_PITCH_SPEED]. *)
Lemma updatePitchPid_motor (g : GimbalSubsystem P) :
  (pitchMotor (updatePitchPid constants g) = pitchMotor g /\
   pitchMotorOutput (updatePitchPid constants g) = 0) \/
  (pitchMotor (updatePitchPid constants g) =
     setDesiredOutput (pitchMotorOutput (updatePitchPid constants g)) (pitchMotor g) /\
   ~ inDeadband (MIN_PITCH_SPEED constants)
       (pitchMotorOutput (updatePitchPid constants g))).
Proof.
  destruct ((- MIN_PITCH_SPEED constants <? pitchCommand constants g)
            && (pitchCommand constants g <? MIN_PITCH_SPEED constants)) eqn:Htest.
  - left. apply updatePitchPid_suppressed, inDeadband_test, Htest.
  - assert (Hout : ~ inDeadband (MIN_PITCH_SPEED constants) (pitchCommand constants g))
      by (rewrite <- inDeadband_test; congruence).
    destruct (updatePitchPid_commanded g Hout) as [Hmotor Hvar].
    right. rewrite Hvar. split; assumption.
Qed.

(** C1: Yaw wrap correctness.  With the threshold configured as pi and both
    angles in [[0, 2 pi)], the yaw error [updateYawPid] uses for control is the
    raw difference moved by at most one turn, its magnitude is at most
    [MAX_YAW_ERROR], and it is the shorter angular distance between the two
    angles: no angle congruent to the difference modulo 2 pi is shorter. *)
Theorem yaw_wrap_correct (g : GimbalSubsystem P) :
  MAX_YAW_ERROR constants = PI ->
  0 <= currentYaw g < 2 * PI ->
  0 <= targetYaw g < 2 * PI ->
  let d := targetYaw g - currentYaw g in
  let e := yawError (updateYawPid constants g) in
  (e = d \/ e = d - 2 * PI \/ e = d + 2 * PI) /\
  Rabs e <= MAX_YAW_ERROR constants /\
  Rabs e = angularDistance (targetYaw g) (currentYaw g) /\
  (forall k : Z, Rabs e <= Rabs (d + IZR k * (2 * PI))).
Proof.
  intros Hmax Hcur Htgt d e.
  pose proof PI_RGT_0 as Hpi.
  assert (He : e = if PI <? d then d - 2 * PI
                   else if d <? - PI then d + 2 * PI else d).
  { unfold e. rewrite updateYawPid_yawError, Hmax. reflexivity. }
  assert (Hd : - (2 * PI) < d < 2 * PI) by (unfold d; lra).
  assert (Hone : e = d \/ e = d - 2 * PI \/ e = d + 2 * PI).
  { rewrite He. destruct (Rltb_spec PI d); [ | destruct (Rltb_spec d (- PI)) ];
      auto. }
  assert (Hbound : Rabs e <= PI).
  { rewrite He. destruct (Rltb_spec PI d); [ | destruct (Rltb_spec d (- PI)) ];
      apply Rabs_le; lra. }
  repeat split.
  - exact Hone.
  - rewrite Hmax. exact Hbound.
  - unfold angularDistance. fold d. rewrite He.
    destruct (Rltb_spec PI d); [ | destruct (Rltb_spec d (- PI)) ].
    + rewrite (Rabs_left (d - 2 * PI)), (Rabs_right d) by lra.
      rewrite Rmin_right; lra.
    + rewrite (Rabs_right (d + 2 * PI)), (Rabs_left d) by lra.
      rewrite Rmin_right; lra.
    + rewrite Rmin_left; [ reflexivity | ].
      assert (Rabs d <= PI) by (apply Rabs_le; lra). lra.
  - intro k.
    destruct Hone as [Hk | [Hk | Hk]].
    + rewrite <- Hk. apply shortest_representative; exact Hbound.
    + replace (d + IZR k * (2 * PI)) with (e + IZR (k + 1) * (2 * PI))
        by (rewrite plus_IZR, Hk; lra).
      apply shortest_representative; exact Hbound.
    + replace (d + IZR k * (2 * PI)) with (e + IZR (k - 1) * (2 * PI))
        by (rewrite minus_IZR, Hk; lra).
      apply shortest_representative; exact Hbound.
Qed.

(** C7: Yaw dead-zone.  Take the yaw error as [updateYawPid] computes it
    from the target and the current angle: their difference, moved by one
    turn when it lies beyond [MAX_YAW_ERROR].  When its magnitude is below
    [YAW_MINIMUM_RADS], [updateYawPid] hands exactly zero to the yaw motor
    and does not run the speed controller, whatever the state before: the
    error stored earlier, the output the motor holds and the controller
    state play no part. *)
Theorem yaw_deadzone_zero (g : GimbalSubsystem P) :
  let d := targetYaw g - currentYaw g in
  let e := if MAX_YAW_ERROR constants <? d then d - M_TWOPI
           else if d <? - MAX_YAW_ERROR constants then d + M_TWOPI
           else d in
  Rabs e < YAW_MINIMUM_RADS constants ->
  yawError (updateYawPid constants g) = e /\
  yawMotor (updateYawPid constants g) = setDesiredOutput 0 (yawMotor g) /\
  desiredOutput (yawMotor (updateYawPid constants g)) = 0 /\
  commandLog (yawMotor (updateYawPid constants g)) = 0 :: commandLog (yawMotor g) /\
  yawMotorPid (updateYawPid constants g) = yawMotorPid g.
Proof.
  intros d e Herr.
  assert (He : yawError (updateYawPid constants g) = e)
    by apply updateYawPid_yawError.
  rewrite <- He in Herr.
  apply inDeadband_Rabs in Herr.
  destruct (updateYawPid_deadzone g Herr) as (Hmotor & Hpid & _).
  split; [ exact He | ].
  rewrite Hmotor. repeat split. exact Hpid.
Qed.

(** ** Pitch loop *)

(** C9: Gravity feed-forward.  The gravity term is
    [GRAVITY_COMPENSATION_SCALAR * cos (clamp (currentPitch - LEVEL_ANGLE) (-pi) pi)]
    and, the scalar being a magnitude, lies between minus the scalar and the
    scalar for every pitch angle. *)
Theorem gravity_term_bounded (g : GimbalSubsystem P) :
  gravityCompensation constants g =
    GRAVITY_COMPENSATION_SCALAR constants *
    cos (clamp (currentPitch g - LEVEL_ANGLE constants) (- PI) PI) /\
  (0 <= GRAVITY_COMPENSATION_SCALAR constants ->
   - GRAVITY_COMPENSATION_SCALAR constants <= gravityCompensation constants g
     <= GRAVITY_COMPENSATION_SCALAR constants).
Proof.
  pose proof PI_RGT_0 as Hpi.
  assert (Heq : gravityCompensation constants g =
                GRAVITY_COMPENSATION_SCALAR constants *
                cos (clamp (currentPitch g - LEVEL_ANGLE constants) (- PI) PI)).
  { unfold gravityCompensation, M_PI. rewrite limitVal_clamp by lra. reflexivity. }
  split; [ exact Heq | ].
  intro Hscalar. rewrite Heq.
  pose proof (COS_bound (clamp (currentPitch g - LEVEL_ANGLE constants) (- PI) PI))
    as [Hlo Hhi].
  split; nra.
Qed.

(** C10: Pitch dead-zone edge case.  Inside the pitch error dead-zone
    [updatePitchPid] still runs the speed controller and still adds the
    gravity term to the zeroed output; when the gravity term's magnitude
    reaches [MIN_PITCH_SPEED], the pitch motor is handed the gravity term
    alone, which is then non-zero for a positive [MIN_PITCH_SPEED]. *)
Theorem pitch_deadzone_gravity_only (g : GimbalSubsystem P) :
  Rabs (targetPitch g - currentPitch g) < PITCH_MINIMUM_RADS constants ->
  pitchMotorPid (updatePitchPid constants g) =
    runController (pitchMotorPid g)
      ((targetPitch g - currentPitch g) * MOTOR_SPEED_FACTOR constants)
      (getPitchMotorRPM g) (timeError g) /\
  pitchCommand constants g = 0 + gravityCompensation constants g /\
  (MIN_PITCH_SPEED constants <= Rabs (gravityCompensation constants g) ->
   pitchMotor (updatePitchPid constants g) =
     setDesiredOutput (gravityCompensation constants g) (pitchMotor g) /\
   desiredOutput (pitchMotor (updatePitchPid constants g)) =
     gravityCompensation constants g /\
   (0 < MIN_PITCH_SPEED constants ->
    desiredOutput (pitchMotor (updatePitchPid constants g)) <> 0)).
Proof.
  intro Herr.
  apply inDeadband_Rabs, inDeadband_test in Herr.
  assert (Hcmd : pitchCommand constants g = 0 + gravityCompensation constants g).
  { unfold pitchCommand. rewrite Herr. reflexivity. }
  split; [ apply updatePitchPid_controller | ].
  split; [ exact Hcmd | ].
  intro Hgrav.
  assert (Hout : ~ inDeadband (MIN_PITCH_SPEED constants) (pitchCommand constants g)).
  { rewrite inDeadband_Rabs, Hcmd, Rplus_0_l. lra. }
  destruct (updatePitchPid_commanded g Hout) as [Hmotor _].
  rewrite Hmotor, Hcmd, Rplus_0_l.
  repeat split.
  intros Hmin Hzero; cbn in Hzero.
  rewrite Hzero, Rabs_R0 in Hgrav. lra.
Qed.

(** ** Frame properties of the two loops *)

Ltac frame_by_cases f :=
  unfold f; cbn; split_tests; reflexivity.

Lemma updateYawPid_pitchMotor (g : GimbalSubsystem P) :
  pitchMotor (updateYawPid constants g) = pitchMotor g.
Proof. frame_by_cases (@updateYawPid). Qed.

Lemma updateYawPid_pitchMotorPid (g : GimbalSubsystem P) :
  pitchMotorPid (updateYawPid constants g) = pitchMotorPid g.
Proof. frame_by_cases (@updateYawPid). Qed.

Lemma updateYawPid_targetYaw (g : GimbalSubsystem P) :
  targetYaw (updateYawPid constants g) = targetYaw g.
Proof. frame_by_cases (@updateYawPid). Qed.

Lemma updateYawPid_targetPitch (g : GimbalSubsystem P) :
  targetPitch (updateYawPid constants g) = targetPitch g.
Proof. frame_by_cases (@updateYawPid). Qed.

Lemma updateYawPid_currentYaw (g : GimbalSubsystem P) :
  currentYaw (updateYawPid constants g) = currentYaw g.
Proof. frame_by_cases (@updateYawPid). Qed.

Lemma updateYawPid_currentPitch (g : GimbalSubsystem P) :
  currentPitch (updateYawPid constants g) = currentPitch g.
Proof. frame_by_cases (@updateYawPid). Qed.

Lemma updateYawPid_inputsFound (g : GimbalSubsystem P) :
  inputsFound (updateYawPid constants g) = inputsFound g.
Proof. frame_by_cases (@updateYawPid). Qed.

Lemma updateYawPid_timeError (g : GimbalSubsystem P) :
  timeError (updateYawPid constants g) = timeError g.
Proof. frame_by_cases (@updateYawPid). Qed.

Lemma updatePitchPid_yawMotor (g : GimbalSubsystem P) :
  yawMotor (updatePitchPid constants g) = yawMotor g.
Proof. frame_by_cases (@updatePitchPid). Qed.

Lemma updatePitchPid_yawMotorPid (g : GimbalSubsystem P) :
  yawMotorPid (updatePitchPid constants g) = yawMotorPid g.
Proof. frame_by_cases (@updatePitchPid). Qed.

Lemma updatePitchPid_targetYaw (g : GimbalSubsystem P) :
  targetYaw (updatePitchPid constants g) = targetYaw g.
Proof. frame_by_cases (@updatePitchPid). Qed.

Lemma updatePitchPid_targetPitch (g : GimbalSubsystem P) :
  targetPitch (updatePitchPid constants g) = targetPitch g.
Proof. frame_by_cases (@updatePitchPid). Qed.

Lemma updatePitchPid_currentYaw (g : GimbalSubsystem P) :
  currentYaw (updatePitchPid constants g) = currentYaw g.
Proof. frame_by_cases (@updatePitchPid). Qed.

Lemma updatePitchPid_currentPitch (g : GimbalSubsystem P) :
  currentPitch (updatePitchPid constants g) = currentPitch g.
Proof. frame_by_cases (@updatePitchPid). Qed.

Lemma updatePitchPid_inputsFound (g : GimbalSubsystem P) :
  inputsFound (updatePitchPid constants g) = inputsFound g.
Proof. frame_by_cases (@updatePitchPid). Qed.

Lemma updatePitchPid_yawError (g : GimbalSubsystem P) :
  yawError (updatePitchPid constants g) = yawError g.
Proof. frame_by_cases (@updatePitchPid). Qed.

Ltac frame_once :=
  rewrite ?updateYawPid_pitchMotor, ?updateYawPid_pitchMotorPid,
    ?updateYawPid_targetYaw, ?updateYawPid_targetPitch,
    ?updateYawPid_currentYaw, ?updateYawPid_currentPitch,
    ?updateYawPid_inputsFound, ?updateYawPid_timeError,
    ?updatePitchPid_yawMotor, ?updatePitchPid_yawMotorPid,
    ?updatePitchPid_targetYaw, ?updatePitchPid_targetPitch,
    ?updatePitchPid_currentYaw, ?updatePitchPid_currentPitch,
    ?updatePitchPid_inputsFound, ?updatePitchPid_yawError;
  gsimpl.

Ltac frame := gsimpl; repeat progress frame_once.

(** ** The control cycle *)

(** Case analysis on the tests of [refresh], the two loops kept folded. *)
Ltac refresh_cases :=
  unfold refresh, yawOnline, pitchOnline, getYawMotorRPM, getPitchMotorRPM;
  gsimpl;
  repeat (frame;
          match goal with
          | |- context [if ?b then _ else _] =>
              lazymatch b with
              | context [if _ then _ else _] => fail
              | _ => destruct b eqn:?
              end
          end;
          gsimpl);
  frame.

(** A cycle without active input: bookkeeping, then both targets are set to
    the current angles.  Nothing is sensed and no motor is commanded. *)
Lemma refresh_no_input (g : GimbalSubsystem P) (now : Z) :
  inputsFound g = false ->
  targetYaw (refresh constants now g) = currentYaw g /\
  targetPitch (refresh constants now g) = currentPitch g /\
  currentYaw (refresh constants now g) = currentYaw g /\
  currentPitch (refresh constants now g) = currentPitch g /\
  inputsFound (refresh constants now g) = false /\
  yawMotor (refresh constants now g) = yawMotor g /\
  pitchMotor (refresh constants now g) = pitchMotor g /\
  yawMotorPid (refresh constants now g) = yawMotorPid g /\
  pitchMotorPid (refresh constants now g) = pitchMotorPid g.
Proof.
  intro Hin.
  unfold refresh, yawOnline, pitchOnline; gsimpl.
  rewrite Hin; gsimpl.
  repeat split; assumption.
Qed.

(** [refresh] never changes the input flag. *)
Lemma refresh_inputsFound (g : GimbalSubsystem P) (now : Z) :
  inputsFound (refresh constants now g) = inputsFound g.
Proof.
  refresh_cases; congruence.
Qed.

(** A cycle with the yaw motor offline skips the yaw axis. *)
Lemma refresh_yaw_offline (g : GimbalSubsystem P) (now : Z) :
  isMotorOnline (yawMotor g) = false ->
  yawMotor (refresh constants now g) = yawMotor g /\
  yawMotorPid (refresh constants now g) = yawMotorPid g /\
  currentYaw (refresh constants now g) = currentYaw g /\
  (inputsFound g = true -> targetYaw (refresh constants now g) = targetYaw g).
Proof.
  intro Hoff.
  refresh_cases; repeat split; intros; congruence.
Qed.

(** A cycle with the pitch motor offline skips the pitch axis. *)
Lemma refresh_pitch_offline (g : GimbalSubsystem P) (now : Z) :
  isMotorOnline (pitchMotor g) = false ->
  pitchMotor (refresh constants now g) = pitchMotor g /\
  pitchMotorPid (refresh constants now g) = pitchMotorPid g /\
  currentPitch (refresh constants now g) = currentPitch g /\
  (inputsFound g = true -> targetPitch (refresh constants now g) = targetPitch g).
Proof.
  intro Hoff.
  refresh_cases; repeat split; intros; congruence.
Qed.

(** Every command [refresh] gives the yaw motor is zero. *)
Lemma refresh_yaw_commands (g : GimbalSubsystem P) (now : Z) :
  yawMotor (refresh constants now g) = yawMotor g \/
  yawMotor (refresh constants now g) = setDesiredOutput 0 (yawMotor g).
Proof.
  refresh_cases; auto;
    match goal with
    | |- context [updateYawPid constants ?x] =>
        destruct (updateYawPid_motor x) as [-> | ->]; gsimpl; auto
    end.
Qed.

(** [refresh] commands the pitch motor only with an output outside the
    dead-band of [MIN_PITCH_SPEED]. *)
Lemma refresh_pitch_commands (g : GimbalSubsystem P) (now : Z) :
  pitchMotor (refresh constants now g) = pitchMotor g \/
  (pitchMotor (refresh constants now g) =
     setDesiredOutput (pitchMotorOutput (refresh constants now g)) (pitchMotor g) /\
   ~ inDeadband (MIN_PITCH_SPEED constants)
       (pitchMotorOutput (refresh constants now g))).
Proof.
  refresh_cases; auto;
    match goal with
    | |- context [updatePitchPid constants ?x] =>
        destruct (updatePitchPid_motor x) as [[Hm _] | [Hm Hout]];
          [ left | right; split; [ | exact Hout ] ];
          rewrite Hm; frame; reflexivity
    end.
Qed.

(** The sensing and control [refresh] performs on an axis whose motor is
    online, while input is active. *)
Lemma refresh_pitch_online (g : GimbalSubsystem P) (now : Z) :
  inputsFound g = true ->
  isMotorOnline (pitchMotor g) = true ->
  let angle := wrappedEncoderValueToRadians (getEncoderWrapped (pitchMotor g)) in
  currentPitch (refresh constants now g) = angle /\
  pitchError (refresh constants now g) = targetPitch g - angle /\
  pitchMotorPid (refresh constants now g) =
    runController (pitchMotorPid g)
      ((targetPitch g - angle) * MOTOR_SPEED_FACTOR constants)
      (getMotorRPM (pitchMotor g))
      (wrap_u32 (now - pastTime g)).
Proof.
  intros Hin Hon angle.
  refresh_cases; try congruence;
    match goal with
    | |- context [updatePitchPid constants ?x] =>
        destruct (updatePitchPid_controller x) as [-> ->];
          unfold getPitchMotorRPM; frame; auto
    end.
Qed.

(** What [refresh] hands the pitch motor, from the state before the
    cycle: the pitch loop runs on the state with the fresh time step and
    the fresh pitch angle. *)
Lemma refresh_pitch_motor (g : GimbalSubsystem P) (now : Z) :
  inputsFound g = true ->
  isMotorOnline (pitchMotor g) = true ->
  let sensed :=
    set_currentPitch
      (wrappedEncoderValueToRadians (getEncoderWrapped (pitchMotor g)))
      (set_timeError (wrap_u32 (now - pastTime g)) g) in
  (inDeadband (MIN_PITCH_SPEED constants) (pitchCommand constants sensed) ->
   pitchMotor (refresh constants now g) = pitchMotor g /\
   pitchMotorOutput (refresh constants now g) = 0) /\
  (~ inDeadband (MIN_PITCH_SPEED constants) (pitchCommand constants sensed) ->
   pitchMotor (refresh constants now g) =
     setDesiredOutput (pitchCommand constants sensed) (pitchMotor g)).
Proof.
  intros Hin Hon sensed.
  remember (pitchCommand constants sensed) as cmd eqn:Hcmd.
  refresh_cases; try congruence;
    match goal with
    | |- context [updatePitchPid constants ?x] =>
        assert (Hsame : pitchCommand constants x = cmd)
          by (subst cmd; unfold pitchCommand, gravityCompensation,
                getPitchMotorRPM, sensed; frame; reflexivity);
        split; intro Hband; rewrite <- Hsame in Hband;
          [ destruct (updatePitchPid_suppressed x Hband) as [-> ->]
          | destruct (updatePitchPid_commanded x Hband) as [-> _];
            rewrite Hsame ];
          frame; auto
    end.
Qed.

Lemma refresh_yaw_online (g : GimbalSubsystem P) (now : Z) :
  inputsFound g = true ->
  isMotorOnline (yawMotor g) = true ->
  let angle := wrappedEncoderValueToRadians (getEncoderWrapped (yawMotor g)) in
  let d := targetYaw g - angle in
  currentYaw (refresh constants now g) = angle /\
  yawError (refresh constants now g) =
    (if MAX_YAW_ERROR constants <? d then d - M_TWOPI
     else if d <? - MAX_YAW_ERROR constants then d + M_TWOPI
     else d).
Proof.
  intros Hin Hon angle d.
  match goal with |- _ /\ _ = ?rhs => remember rhs as wrapped eqn:Hw end.
  refresh_cases; try congruence;
    rewrite updateYawPid_yawError; gsimpl; subst wrapped; auto.
Qed.

(** ** Input arbitration *)

(** C5: Vision relativity.  [cvInput] sets each target to the current
    measured angle plus the offset clamped to [[-2 pi, 2 pi]], whatever the
    targets were before, and raises [inputsFound]. *)
Theorem cvInput_relative (g : GimbalSubsystem P) (yawInput pitchInput : R) :
  targetYaw (cvInput yawInput pitchInput g) =
    currentYaw g + clamp yawInput (- (2 * PI)) (2 * PI) /\
  targetPitch (cvInput yawInput pitchInput g) =
    currentPitch g + clamp pitchInput (- (2 * PI)) (2 * PI) /\
  inputsFound (cvInput yawInput pitchInput g) = true /\
  (forall priorYaw priorPitch : R,
     let g0 := set_targetPitch priorPitch (set_targetYaw priorYaw g) in
     targetYaw (cvInput yawInput pitchInput g0) =
       targetYaw (cvInput yawInput pitchInput g) /\
     targetPitch (cvInput yawInput pitchInput g0) =
       targetPitch (cvInput yawInput pitchInput g)).
Proof.
  pose proof PI_RGT_0 as Hpi.
  unfold cvInput, setYawAngle, setPitchAngle, M_TWOPI; cbn.
  rewrite !limitVal_clamp by lra.
  repeat split.
Qed.

(** C6: Manual accumulation.  [controllerInput] adds the deflection times
    the axis scale to the previous target; two calls [controllerInput d 0]
    in a row move the yaw target by [2 * d * YAW_SCALE]. *)
Theorem controllerInput_accumulates (g : GimbalSubsystem P) (yawInput pitchInput d : R) :
  targetYaw (controllerInput constants yawInput pitchInput g) =
    targetYaw g + yawInput * YAW_SCALE constants /\
  targetPitch (controllerInput constants yawInput pitchInput g) =
    targetPitch g + pitchInput * PITCH_SCALE constants /\
  inputsFound (controllerInput constants yawInput pitchInput g) = true /\
  targetYaw (controllerInput constants d 0 (controllerInput constants d 0 g)) =
    targetYaw g + 2 * d * YAW_SCALE constants.
Proof.
  unfold controllerInput, setYawAngle, setPitchAngle; cbn.
  repeat split. lra.
Qed.

(** The fields [cvInput] leaves alone. *)
Lemma cvInput_frame (g : GimbalSubsystem P) (yawInput pitchInput : R) :
  currentYaw (cvInput yawInput pitchInput g) = currentYaw g /\
  currentPitch (cvInput yawInput pitchInput g) = currentPitch g /\
  yawMotor (cvInput yawInput pitchInput g) = yawMotor g /\
  pitchMotor (cvInput yawInput pitchInput g) = pitchMotor g /\
  pitchMotorPid (cvInput yawInput pitchInput g) = pitchMotorPid g /\
  pastTime (cvInput yawInput pitchInput g) = pastTime g.
Proof. repeat split. Qed.

(** [noInputs] does not move the targets. *)
Lemma noInputs_targets (g : GimbalSubsystem P) :
  targetYaw (noInputs g) = targetYaw g /\ targetPitch (noInputs g) = targetPitch g.
Proof. split; reflexivity. Qed.

(** ** Runs *)

(** Readings reported by the motors change nothing the controller owns. *)
Lemma reports_keep_control_state (es : list Event) :
  forall g : GimbalSubsystem P,
  forallb isReport es = true ->
  inputsFound (run constants g es) = inputsFound g /\
  targetYaw (run constants g es) = targetYaw g /\
  targetPitch (run constants g es) = targetPitch g /\
  currentYaw (run constants g es) = currentYaw g /\
  currentPitch (run constants g es) = currentPitch g /\
  desiredOutput (yawMotor (run constants g es)) = desiredOutput (yawMotor g) /\
  desiredOutput (pitchMotor (run constants g es)) = desiredOutput (pitchMotor g) /\
  commandLog (yawMotor (run constants g es)) = commandLog (yawMotor g) /\
  commandLog (pitchMotor (run constants g es)) = commandLog (pitchMotor g).
Proof.
  induction es as [ | e es IH ]; intros g Hes.
  - repeat split.
  - cbn [forallb] in Hes. apply andb_prop in Hes as [He Hes].
    change (run constants g (e :: es)) with (run constants (step constants g e) es).
    destruct (IH (step constants g e) Hes)
      as (-> & -> & -> & -> & -> & -> & -> & -> & ->).
    destruct e; try discriminate He; repeat split.
Qed.

Lemma idleOutputsZero_initialize (g : GimbalSubsystem P) (now : Z) :
  idleOutputsZero (initialize constants now g).
Proof. intros _. split; reflexivity. Qed.

Lemma idleOutputsZero_step (g : GimbalSubsystem P) (e : Event) :
  idleOutputsZero g -> idleOutputsZero (step constants g e).
Proof.
  unfold idleOutputsZero. intros Hinv.
  destruct e as [ now | now | y p | y p | | o enc rpm | o enc rpm ];
    cbn [step].
  - intros _. split; reflexivity.
  - rewrite refresh_inputsFound. intro Hin.
    destruct (refresh_no_input g now Hin) as (_ & _ & _ & _ & _ & -> & -> & _).
    auto.
  - intro Hin; discriminate Hin.
  - intro Hin; discriminate Hin.
  - intros _. split; reflexivity.
  - exact Hinv.
  - exact Hinv.
Qed.

Lemma idleOutputsZero_run (es : list Event) :
  forall g : GimbalSubsystem P,
  idleOutputsZero g -> idleOutputsZero (run constants g es).
Proof.
  induction es as [ | e es IH ]; intros g Hinv.
  - exact Hinv.
  - change (run constants g (e :: es)) with (run constants (step constants g e) es).
    apply IH, idleOutputsZero_step, Hinv.
Qed.

(** What [initialize] leaves behind: both axes calibrated on the encoder
    reading, targets on the current angles, both motors commanded zero. *)
Lemma initialize_state (g : GimbalSubsystem P) (now : Z) :
  let yaw0 := wrappedEncoderValueToRadians (getEncoderWrapped (yawMotor g)) in
  let pitch0 := wrappedEncoderValueToRadians (getEncoderWrapped (pitchMotor g)) in
  let g' := initialize constants now g in
  (startingYaw g' = yaw0 /\ currentYaw g' = yaw0 /\ targetYaw g' = yaw0) /\
  (startingPitch g' = pitch0 /\ currentPitch g' = pitch0 /\ targetPitch g' = pitch0) /\
  yawMotor g' = setDesiredOutput 0 (yawMotor g) /\
  pitchMotor g' = setDesiredOutput 0 (pitchMotor g) /\
  yawMotorPid g' = yawMotorPid g /\
  pitchMotorPid g' = pitchMotorPid g /\
  inputsFound g' = inputsFound g /\
  pastTime g' = now.
Proof.
  unfold initialize; gsimpl. repeat split.
Qed.

(** ** Claims about the control cycle *)

(** C2: Motor output gating, as the code has it.  In every state reached
    after [initialize], both drivers hold a zero command while
    [inputsFound] is false.  In a cycle where an axis's motor is offline or
    [inputsFound] is false, [refresh] gives that axis's driver no command,
    so the driver keeps the output it was last given.  Every command
    [refresh] gives the yaw driver is zero, and it commands the pitch
    driver only with an output outside the [MIN_PITCH_SPEED] dead-band:
    when the pitch output falls inside it, the output variable is zeroed
    and the driver is given no command. *)
Theorem refresh_output_gating :
  (forall (g0 : GimbalSubsystem P) (t0 : Z) (es : list Event),
     idleOutputsZero (run constants (initialize constants t0 g0) es)) /\
  (forall (g : GimbalSubsystem P) (now : Z),
     (isMotorOnline (yawMotor g) = false \/ inputsFound g = false ->
      yawMotor (refresh constants now g) = yawMotor g) /\
     (isMotorOnline (pitchMotor g) = false \/ inputsFound g = false ->
      pitchMotor (refresh constants now g) = pitchMotor g) /\
     (yawMotor (refresh constants now g) = yawMotor g \/
      yawMotor (refresh constants now g) = setDesiredOutput 0 (yawMotor g)) /\
     (pitchMotor (refresh constants now g) = pitchMotor g \/
      (pitchMotor (refresh constants now g) =
         setDesiredOutput (pitchMotorOutput (refresh constants now g)) (pitchMotor g) /\
       ~ inDeadband (MIN_PITCH_SPEED constants)
           (pitchMotorOutput (refresh constants now g)))) /\
     (inputsFound g = true ->
      isMotorOnline (pitchMotor g) = true ->
      inDeadband (MIN_PITCH_SPEED constants)
        (pitchCommand constants
           (set_currentPitch
              (wrappedEncoderValueToRadians (getEncoderWrapped (pitchMotor g)))
              (set_timeError (wrap_u32 (now - pastTime g)) g))) ->
      pitchMotor (refresh constants now g) = pitchMotor g /\
      pitchMotorOutput (refresh constants now g) = 0)).
Proof.
  split.
  - intros g0 t0 es. apply idleOutputsZero_run, idleOutputsZero_initialize.
  - intros g now. repeat apply conj.
    + intros [Hoff | Hin].
      * apply refresh_yaw_offline, Hoff.
      * apply refresh_no_input, Hin.
    + intros [Hoff | Hin].
      * apply refresh_pitch_offline, Hoff.
      * apply refresh_no_input, Hin.
    + apply refresh_yaw_commands.
    + apply refresh_pitch_commands.
    + intros Hin Hon.
      pose proof (refresh_pitch_motor g now Hin Hon) as Hmotor.
      cbv zeta in Hmotor. destruct Hmotor as [Hband _]. exact Hband.
Qed.

(** C3: No-input stability.  After [noInputs], any readings the motors
    report, and one [refresh], each target equals the current angle of its
    axis and both motors hold the zero command [noInputs] gave them. *)
Theorem no_input_stability (g : GimbalSubsystem P) (reports : list Event) (now : Z) :
  forallb isReport reports = true ->
  let g' := refresh constants now (run constants (noInputs g) reports) in
  targetYaw g' = currentYaw g' /\
  targetPitch g' = currentPitch g' /\
  desiredOutput (yawMotor g') = 0 /\
  desiredOutput (pitchMotor g') = 0 /\
  commandLog (yawMotor g') = 0 :: commandLog (yawMotor g) /\
  commandLog (pitchMotor g') = 0 :: commandLog (pitchMotor g).
Proof.
  intros Hreports g'.
  destruct (reports_keep_control_state reports (noInputs g) Hreports)
    as (Hin & _ & _ & _ & _ & Hyaw & Hpitch & Hylog & Hplog).
  change (inputsFound (noInputs g)) with false in Hin.
  destruct (refresh_no_input _ now Hin)
    as (Hty & Htp & Hcy & Hcp & _ & Hym & Hpm & _).
  unfold g'.
  rewrite Hty, Htp, Hcy, Hcp, Hym, Hpm, Hyaw, Hpitch, Hylog, Hplog.
  repeat split.
Qed.

(** C4: Targets without input, as the code has it.  While [inputsFound]
    is false, [refresh] sets each target to the current angle of its axis
    and leaves the current angles and the flag alone; so a target keeps its
    value in such a cycle exactly when it already equals the current
    angle, which holds from the second such cycle on.  [noInputs] itself
    leaves the targets unchanged. *)
Theorem no_input_targets_track_current (g : GimbalSubsystem P) (now : Z) :
  inputsFound g = false ->
  let g' := refresh constants now g in
  targetYaw g' = currentYaw g /\
  targetPitch g' = currentPitch g /\
  currentYaw g' = currentYaw g /\
  currentPitch g' = currentPitch g /\
  inputsFound g' = false /\
  (targetYaw g' = targetYaw g <-> targetYaw g = currentYaw g) /\
  (targetPitch g' = targetPitch g <-> targetPitch g = currentPitch g) /\
  (forall later : Z,
     targetYaw (refresh constants later g') = targetYaw g' /\
     targetPitch (refresh constants later g') = targetPitch g') /\
  targetYaw (noInputs g) = targetYaw g /\
  targetPitch (noInputs g) = targetPitch g.
Proof.
  intros Hin g'.
  destruct (refresh_no_input g now Hin) as (Hty & Htp & Hcy & Hcp & Hin' & _).
  fold g' in Hty, Htp, Hcy, Hcp, Hin'.
  assert (Hlater : forall later : Z,
             targetYaw (refresh constants later g') = targetYaw g' /\
             targetPitch (refresh constants later g') = targetPitch g').
  { intro later.
    destruct (refresh_no_input g' later Hin') as (-> & -> & _).
    split; congruence. }
  split; [ exact Hty | ].
  split; [ exact Htp | ].
  split; [ exact Hcy | ].
  split; [ exact Hcp | ].
  split; [ exact Hin' | ].
  split; [ split; congruence | ].
  split; [ split; congruence | ].
  split; [ exact Hlater | ].
  apply noInputs_targets.
Qed.



(** * Further properties of the code *)

(** ** Encoder conversion *)

Lemma wrappedEncoderValueToRadians_zero : wrappedEncoderValueToRadians 0 = 0.
Proof. unfold wrappedEncoderValueToRadians, ENC_RESOLUTION. lra. Qed.

Lemma wrappedEncoderValueToRadians_lt (a b : Z) :
  (a < b)%Z ->
  wrappedEncoderValueToRadians a < wrappedEncoderValueToRadians b.
Proof.
  intro Hab. apply IZR_lt in Hab.
  pose proof PI_RGT_0 as Hpi.
  unfold wrappedEncoderValueToRadians, M_TWOPI, ENC_RESOLUTION.
  apply Rmult_lt_compat_r; [ lra | nra ].
Qed.

Lemma wrappedEncoderValueToRadians_full_turn :
  wrappedEncoderValueToRadians ENC_RESOLUTION = 2 * PI.
Proof.
  unfold wrappedEncoderValueToRadians, M_TWOPI, ENC_RESOLUTION. lra.
Qed.

Lemma encoderInRange_spec (enc : Z) :
  encoderInRange enc = true <-> (0 <= enc < ENC_RESOLUTION)%Z.
Proof.
  unfold encoderInRange.
  rewrite andb_true_iff, Z.leb_le, Z.ltb_lt. reflexivity.
Qed.

Lemma wrappedEncoderValueToRadians_inRange (enc : Z) :
  encoderInRange enc = true ->
  angleInRange (wrappedEncoderValueToRadians enc).
Proof.
  rewrite encoderInRange_spec. intros [Hlo Hhi].
  unfold angleInRange.
  rewrite <- wrappedEncoderValueToRadians_full_turn.
  split.
  - destruct (Z.eq_dec enc 0) as [-> | Hne].
    + rewrite wrappedEncoderValueToRadians_zero. lra.
    + left. rewrite <- wrappedEncoderValueToRadians_zero.
      apply wrappedEncoderValueToRadians_lt. lia.
  - apply wrappedEncoderValueToRadians_lt. exact Hhi.
Qed.

(** X1: A wrapped encoder reading maps to an angle of [[0, 2 pi)], and a
    larger reading maps to a strictly larger angle: the conversion is
    one-to-one on a revolution. *)
Theorem encoder_angle_range_and_order (a b : Z) :
  (0 <= a)%Z -> (a < b)%Z -> (b < ENC_RESOLUTION)%Z ->
  0 <= wrappedEncoderValueToRadians a /\
  wrappedEncoderValueToRadians a < wrappedEncoderValueToRadians b /\
  wrappedEncoderValueToRadians b < 2 * PI.
Proof.
  intros Ha Hab Hb.
  assert (Hra : encoderInRange a = true) by (apply encoderInRange_spec; lia).
  assert (Hrb : encoderInRange b = true) by (apply encoderInRange_spec; lia).
  apply wrappedEncoderValueToRadians_inRange in Hra, Hrb.
  destruct Hra as [Hlo _], Hrb as [_ Hhi].
  split; [ exact Hlo | ].
  split; [ apply wrappedEncoderValueToRadians_lt; exact Hab | exact Hhi ].
Qed.

(** ** What the two loops write *)

(** [updateYawPid] writes the yaw error, the yaw motor, the yaw controller
    and the yaw output, and nothing else. *)
Lemma updateYawPid_footprint (g : GimbalSubsystem P) :
  exists (e : R) (m : DjiMotor) (c : P) (o : R),
    updateYawPid constants g =
    set_yawMotorOutput o (set_yawMotorPid c (set_yawMotor m (set_yawError e g))).
Proof.
  exists (yawError (updateYawPid constants g)),
         (yawMotor (updateYawPid constants g)),
         (yawMotorPid (updateYawPid constants g)),
         (yawMotorOutput (updateYawPid constants g)).
  unfold updateYawPid; cbn. split_tests; reflexivity.
Qed.

(** [updatePitchPid] writes the pitch error, the pitch motor, the pitch
    controller and the pitch output, and nothing else. *)
Lemma updatePitchPid_footprint (g : GimbalSubsystem P) :
  exists (e : R) (m : DjiMotor) (c : P) (o : R),
    updatePitchPid constants g =
    set_pitchMotorOutput o
      (set_pitchMotorPid c (set_pitchMotor m (set_pitchError e g))).
Proof.
  exists (pitchError (updatePitchPid constants g)),
         (pitchMotor (updatePitchPid constants g)),
         (pitchMotorPid (updatePitchPid constants g)),
         (pitchMotorOutput (updatePitchPid constants g)).
  unfold updatePitchPid; cbn. split_tests; reflexivity.
Qed.

(** Case analysis on [refresh] for the fields neither loop writes: each
    loop is replaced by its footprint. *)
Ltac refresh_frame :=
  unfold refresh, yawOnline, pitchOnline, getYawMotorRPM, getPitchMotorRPM;
  gsimpl;
  repeat match goal with
         | |- context [updateYawPid constants ?x] =>
             destruct (updateYawPid_footprint x) as (? & ? & ? & ? & ->);
             gsimpl
         | |- context [updatePitchPid constants ?x] =>
             destruct (updatePitchPid_footprint x) as (? & ? & ? & ? & ->);
             gsimpl
         | |- context [if ?b then _ else _] =>
             lazymatch b with
             | context [if _ then _ else _] => fail
             | _ => destruct b eqn:?; gsimpl
             end
         end.

(** ** Bookkeeping of a cycle *)

Lemma refresh_clock (g : GimbalSubsystem P) (now : Z) :
  pastTime (refresh constants now g) = now /\
  timeError (refresh constants now g) = wrap_u32 (now - pastTime g).
Proof.
  split; refresh_frame; reflexivity.
Qed.

(** X2: Every cycle, with or without input and whatever the motors report,
    [refresh] stores the clock sample and the time elapsed since the last
    cycle.  Computed in 32-bit unsigned arithmetic, the elapsed time is
    right also when the millisecond clock has rolled over in between. *)
Theorem refresh_elapsed_time (g : GimbalSubsystem P) (now : Z) :
  (0 <= pastTime g < 2 ^ 32)%Z ->
  (0 <= now < 2 ^ 32)%Z ->
  pastTime (refresh constants now g) = now /\
  (0 <= timeError (refresh constants now g) < 2 ^ 32)%Z /\
  ((pastTime g <= now)%Z ->
   timeError (refresh constants now g) = (now - pastTime g)%Z) /\
  ((now < pastTime g)%Z ->
   timeError (refresh constants now g) = (now + 2 ^ 32 - pastTime g)%Z).
Proof.
  intros Hpast Hnow.
  destruct (refresh_clock g now) as [-> ->].
  unfold wrap_u32.
  split; [ reflexivity | ].
  split; [ apply Z.mod_pos_bound; lia | ].
  split; intro Hcmp.
  - apply Z.mod_small. lia.
  - replace (now - pastTime g)%Z with (now + 2 ^ 32 - pastTime g + -1 * 2 ^ 32)%Z
      by lia.
    rewrite Z.mod_add by lia. apply Z.mod_small. lia.
Qed.

(** ** Who owns which field *)

Lemma refresh_calibration (g : GimbalSubsystem P) (now : Z) :
  startingYaw (refresh constants now g) = startingYaw g /\
  startingPitch (refresh constants now g) = startingPitch g /\
  startingYawEncoder (refresh constants now g) = startingYawEncoder g /\
  startingPitchEncoder (refresh constants now g) = startingPitchEncoder g /\
  imuYaw (refresh constants now g) = imuYaw g /\
  imuPitch (refresh constants now g) = imuPitch g.
Proof.
  repeat apply conj; refresh_frame; reflexivity.
Qed.

(** X3: The calibration reference is written by [initialize] only: over any
    sequence of cycles, input calls and motor reports, the starting angles
    and the stored IMU angles keep their values. *)
Theorem calibration_written_once (es : list Event) :
  forall g : GimbalSubsystem P,
  forallb (fun e => negb (isInitialize e)) es = true ->
  startingYaw (run constants g es) = startingYaw g /\
  startingPitch (run constants g es) = startingPitch g /\
  startingYawEncoder (run constants g es) = startingYawEncoder g /\
  startingPitchEncoder (run constants g es) = startingPitchEncoder g /\
  imuYaw (run constants g es) = imuYaw g /\
  imuPitch (run constants g es) = imuPitch g.
Proof.
  induction es as [ | e es IH ]; intros g Hes.
  - repeat split.
  - cbn [forallb] in Hes. apply andb_prop in Hes as [He Hes].
    change (run constants g (e :: es)) with (run constants (step constants g e) es).
    destruct (IH (step constants g e) Hes) as (-> & -> & -> & -> & -> & ->).
    destruct e; try discriminate He; cbn [step];
      try apply refresh_calibration; repeat split.
Qed.

(** X4: The input flag is a function of the calls alone: it is true after
    [controllerInput] or [cvInput], false after [noInputs], and no cycle,
    motor report or [initialize] changes it. *)
Theorem inputsFound_follows_calls (es : list Event) :
  forall g : GimbalSubsystem P,
  inputsFound (run constants g es) = flagAfter (inputsFound g) es.
Proof.
  induction es as [ | e es IH ]; intro g.
  - reflexivity.
  - change (run constants g (e :: es)) with (run constants (step constants g e) es).
    rewrite IH. unfold flagAfter; cbn [fold_left]. f_equal.
    destruct e; cbn [step]; try reflexivity.
    apply refresh_inputsFound.
Qed.

(** X5: The control loops never move a target: in a cycle with active input
    both targets keep their values, whichever motors are online. *)
Theorem active_cycle_keeps_targets (g : GimbalSubsystem P) (now : Z) :
  inputsFound g = true ->
  targetYaw (refresh constants now g) = targetYaw g /\
  targetPitch (refresh constants now g) = targetPitch g.
Proof.
  intro Hin. split; refresh_cases; congruence.
Qed.

(** ** Bounds on what the loops compute *)

(** Outside the error dead-zone, the yaw output is the clamped controller
    output, zeroed when it falls inside the [MIN_YAW_SPEED] dead-band. *)
Lemma updateYawPid_output (g : GimbalSubsystem P) :
  ~ inDeadband (YAW_MINIMUM_RADS constants) (yawError (updateYawPid constants g)) ->
  yawMotorOutput (updateYawPid constants g) =
    (let clamped :=
       limitVal (getOutput (yawMotorPid (updateYawPid constants g)))
         (- MAX_YAW_SPEED constants) (MAX_YAW_SPEED constants) in
     if (- MIN_YAW_SPEED constants <? clamped)
        && (clamped <? MIN_YAW_SPEED constants)
     then 0 else clamped).
Proof.
  rewrite <- inDeadband_test.
  unfold updateYawPid; cbn.
  split_tests; intros; try congruence; reflexivity.
Qed.

(** X6: Outside the error dead-zone, the yaw output [updateYawPid] computes
    lies within the speed limit and is either zero or outside the
    [MIN_YAW_SPEED] dead-band; the yaw motor itself is given no command. *)
Theorem yaw_output_clamped (g : GimbalSubsystem P) :
  0 < MAX_YAW_SPEED constants ->
  ~ inDeadband (YAW_MINIMUM_RADS constants) (yawError (updateYawPid constants g)) ->
  - MAX_YAW_SPEED constants <= yawMotorOutput (updateYawPid constants g)
    <= MAX_YAW_SPEED constants /\
  (yawMotorOutput (updateYawPid constants g) = 0 \/
   ~ inDeadband (MIN_YAW_SPEED constants) (yawMotorOutput (updateYawPid constants g))) /\
  yawMotor (updateYawPid constants g) = yawMotor g.
Proof.
  intros Hmax Hout.
  destruct (updateYawPid_tracking g Hout) as [Hmotor _].
  rewrite (updateYawPid_output g Hout). cbv zeta.
  match goal with
  | |- context [limitVal ?v ?lo ?hi] =>
      pose proof (limitVal_range v lo hi ltac:(lra)) as Hclamp;
      set (clamped := limitVal v lo hi) in *
  end.
  destruct ((- MIN_YAW_SPEED constants <? clamped)
            && (clamped <? MIN_YAW_SPEED constants)) eqn:Htest.
  - split; [ lra | ]. split; [ left; reflexivity | exact Hmotor ].
  - split; [ exact Hclamp | ]. split; [ | exact Hmotor ].
    right. rewrite <- inDeadband_test. congruence.
Qed.

Lemma pitchCommand_bounded (g : GimbalSubsystem P) :
  0 < MAX_PITCH_SPEED constants ->
  0 <= GRAVITY_COMPENSATION_SCALAR constants ->
  Rabs (pitchCommand constants g)
    <= MAX_PITCH_SPEED constants + GRAVITY_COMPENSATION_SCALAR constants.
Proof.
  intros Hmax Hgrav.
  unfold pitchCommand, gravityCompensation.
  match goal with
  | |- context [cos ?x] => pose proof (COS_bound x) as [Hlo Hhi]; set (c := cos x) in *
  end.
  apply Rabs_le.
  match goal with
  | |- context [if ?b then 0 else limitVal ?v ?lo ?hi] =>
      pose proof (limitVal_range v lo hi) as Hclamp; destruct b
  end.
  - split; nra.
  - specialize (Hclamp ltac:(lra)). split; nra.
Qed.

(** X7: Whatever [refresh] hands the pitch motor has magnitude at least
    [MIN_PITCH_SPEED] and at most [MAX_PITCH_SPEED] plus the gravity scalar;
    in every other cycle the pitch motor is given no command. *)
Theorem pitch_command_bounded (g : GimbalSubsystem P) (now : Z) :
  0 < MAX_PITCH_SPEED constants ->
  0 <= GRAVITY_COMPENSATION_SCALAR constants ->
  pitchMotor (refresh constants now g) = pitchMotor g \/
  exists c : R,
    pitchMotor (refresh constants now g) = setDesiredOutput c (pitchMotor g) /\
    ~ inDeadband (MIN_PITCH_SPEED constants) c /\
    Rabs c <= MAX_PITCH_SPEED constants + GRAVITY_COMPENSATION_SCALAR constants.
Proof.
  intros Hmax Hgrav.
  destruct (inputsFound g) eqn:Hin;
    [ | left; apply refresh_no_input, Hin ].
  destruct (isMotorOnline (pitchMotor g)) eqn:Hon;
    [ | left; apply refresh_pitch_offline, Hon ].
  pose proof (refresh_pitch_motor g now Hin Hon) as Hmotor.
  cbv zeta in Hmotor. destruct Hmotor as [Hquiet Hsent].
  match type of Hsent with
  | ~ inDeadband ?b ?c -> _ =>
      destruct ((- b <? c) && (c <? b)) eqn:Htest;
        [ left; apply Hquiet, inDeadband_test, Htest
        | right; exists c ]
  end.
  assert (Hout : forall b c, (- b <? c) && (c <? b) = false -> ~ inDeadband b c)
    by (intros b c Hf; rewrite <- inDeadband_test; congruence).
  apply Hout in Htest.
  split; [ apply Hsent, Htest | ].
  split; [ exact Htest | ].
  apply pitchCommand_bounded; assumption.
Qed.

(** ** The yaw motor is never driven *)

Lemma step_yaw_command (g : GimbalSubsystem P) (e : Event) :
  (desiredOutput (yawMotor (step constants g e)) = desiredOutput (yawMotor g) /\
   commandLog (yawMotor (step constants g e)) = commandLog (yawMotor g)) \/
  (desiredOutput (yawMotor (step constants g e)) = 0 /\
   commandLog (yawMotor (step constants g e)) = 0 :: commandLog (yawMotor g)).
Proof.
  destruct e as [ now | now | y p | y p | | o enc rpm | o enc rpm ];
    cbn [step]; try (left; split; reflexivity); try (right; split; reflexivity).
  destruct (refresh_yaw_commands g now) as [-> | ->];
    [ left | right ]; split; reflexivity.
Qed.

Lemma run_yaw_commands (es : list Event) :
  forall g : GimbalSubsystem P,
  desiredOutput (yawMotor g) = 0 ->
  desiredOutput (yawMotor (run constants g es)) = 0 /\
  exists sent : list R,
    commandLog (yawMotor (run constants g es)) = sent ++ commandLog (yawMotor g) /\
    Forall (fun v => v = 0) sent.
Proof.
  induction es as [ | e es IH ]; intros g Hzero.
  - split; [ exact Hzero | ]. exists []. split; [ reflexivity | constructor ].
  - change (run constants g (e :: es)) with (run constants (step constants g e) es).
    destruct (step_yaw_command g e) as [[Hout Hlog] | [Hout Hlog]].
    + rewrite Hzero in Hout.
      destruct (IH _ Hout) as (Hz & sent & Hsent & Hall).
      split; [ exact Hz | ]. exists sent. rewrite Hsent, Hlog. auto.
    + destruct (IH _ Hout) as (Hz & sent & Hsent & Hall).
      split; [ exact Hz | ]. exists (sent ++ [0]).
      rewrite Hsent, Hlog, <- app_assoc. split; [ reflexivity | ].
      apply Forall_app. split; [ exact Hall | repeat constructor ].
Qed.

(** X8: Once [initialize] has run, no sequence of cycles, input calls and
    motor reports ever hands the yaw motor anything but zero: its driver
    holds a zero command in every state reached, and every command it has
    received since is zero. *)
Theorem yaw_motor_never_driven (g0 : GimbalSubsystem P) (t0 : Z) (es : list Event) :
  desiredOutput (yawMotor (run constants (initialize constants t0 g0) es)) = 0 /\
  exists sent : list R,
    commandLog (yawMotor (run constants (initialize constants t0 g0) es)) =
      sent ++ 0 :: commandLog (yawMotor g0) /\
    Forall (fun v => v = 0) sent.
Proof.
  destruct (initialize_state g0 t0) as (_ & _ & Hmotor & _).
  cbv zeta in Hmotor.
  assert (Hzero : desiredOutput (yawMotor (initialize constants t0 g0)) = 0)
    by (rewrite Hmotor; reflexivity).
  destruct (run_yaw_commands es _ Hzero) as (Hz & sent & Hsent & Hall).
  split; [ exact Hz | ].
  exists sent. rewrite Hsent, Hmotor. split; [ reflexivity | exact Hall ].
Qed.

(** ** How the input calls compose *)

(** X9: A vision offset always leaves a yaw error of at most half a turn:
    with the threshold at pi, [updateYawPid] run right after [cvInput]
    computes an error of magnitude at most pi that differs from the clamped
    offset by at most one turn. *)
Theorem cvInput_error_within_half_turn
  (g : GimbalSubsystem P) (yawInput pitchInput : R) :
  MAX_YAW_ERROR constants = PI ->
  let d := limitVal yawInput (- M_TWOPI) M_TWOPI in
  let e := yawError (updateYawPid constants (cvInput yawInput pitchInput g)) in
  Rabs e <= PI /\ (e = d \/ e = d - 2 * PI \/ e = d + 2 * PI).
Proof.
  intros Hmax d e.
  pose proof PI_RGT_0 as Hpi.
  assert (Hd : - (2 * PI) <= d <= 2 * PI)
    by (unfold d, M_TWOPI; apply limitVal_range; lra).
  assert (He : e = if PI <? d then d - 2 * PI
                   else if d <? - PI then d + 2 * PI else d).
  { unfold e. rewrite updateYawPid_yawError, Hmax.
    replace (targetYaw (cvInput yawInput pitchInput g)
             - currentYaw (cvInput yawInput pitchInput g)) with d
      by (unfold cvInput, setYawAngle, setPitchAngle, d; gsimpl; lra).
    reflexivity. }
  rewrite He.
  destruct (Rltb_spec PI d); [ | destruct (Rltb_spec d (- PI)) ];
    (split; [ apply Rabs_le; lra | auto ]).
Qed.

(** X11: Input resumes from where the gimbal is: after a cycle without
    active input, the first [controllerInput] sets each target to the
    current angle plus the scaled deflection, whatever the target was when
    input was lost. *)
Theorem controllerInput_resumes_from_current
  (g : GimbalSubsystem P) (now : Z) (yawInput pitchInput : R) :
  inputsFound g = false ->
  let g' := controllerInput constants yawInput pitchInput (refresh constants now g) in
  targetYaw g' = currentYaw g + yawInput * YAW_SCALE constants /\
  targetPitch g' = currentPitch g + pitchInput * PITCH_SCALE constants /\
  inputsFound g' = true.
Proof.
  intros Hin g'.
  destruct (refresh_no_input g now Hin) as (Hty & Htp & _).
  unfold g', controllerInput, setYawAngle, setPitchAngle; gsimpl.
  rewrite Hty, Htp. repeat split.
Qed.

(** X12: [cvInput] does not accumulate and overrides what came before:
    applied after any other input call, it gives the state it gives when
    applied alone. *)
Theorem cvInput_overrides
  (g : GimbalSubsystem P) (yawInput pitchInput y p : R) :
  cvInput yawInput pitchInput (cvInput y p g) = cvInput yawInput pitchInput g /\
  cvInput yawInput pitchInput (controllerInput constants y p g) =
    cvInput yawInput pitchInput g /\
  cvInput yawInput pitchInput (cvInput yawInput pitchInput g) =
    cvInput yawInput pitchInput g.
Proof.
  repeat split.
Qed.

(** ** Start-up and holding position *)

(** X13: With both encoder readings within a revolution, [initialize]
    leaves each axis with starting angle, current angle and target all
    equal to the converted reading, an angle of [[0, 2 pi)]; both motors
    hold a zero command, and the input flag is as it was. *)
Theorem initialize_calibrates (g : GimbalSubsystem P) (now : Z) :
  encoderInRange (getEncoderWrapped (yawMotor g)) = true ->
  encoderInRange (getEncoderWrapped (pitchMotor g)) = true ->
  let g' := initialize constants now g in
  (startingYaw g' = wrappedEncoderValueToRadians (getEncoderWrapped (yawMotor g)) /\
   currentYaw g' = startingYaw g' /\ targetYaw g' = startingYaw g' /\
   angleInRange (currentYaw g')) /\
  (startingPitch g' = wrappedEncoderValueToRadians (getEncoderWrapped (pitchMotor g)) /\
   currentPitch g' = startingPitch g' /\ targetPitch g' = startingPitch g' /\
   angleInRange (currentPitch g')) /\
  desiredOutput (yawMotor g') = 0 /\
  desiredOutput (pitchMotor g') = 0 /\
  inputsFound g' = inputsFound g.
Proof.
  intros Hyaw Hpitch g'.
  destruct (initialize_state g now)
    as ((Hsy & Hcy & Hty) & (Hsp & Hcp & Htp) & Hym & Hpm & _ & _ & Hin & _).
  cbv zeta in *. fold g' in Hsy, Hcy, Hty, Hsp, Hcp, Htp, Hym, Hpm, Hin.
  rewrite Hcy, Hty, Hsy, Hcp, Htp, Hsp, Hym, Hpm, Hin.
  apply wrappedEncoderValueToRadians_inRange in Hyaw, Hpitch.
  repeat split; solve [ apply Hyaw | apply Hpitch ].
Qed.

(** X14: Holding position: in a cycle with active input and the yaw motor
    online, a yaw target equal to the measured angle gives a zero yaw
    error, hands the yaw motor a zero command and leaves the yaw controller
    as it was. *)
Theorem refresh_holds_yaw_at_target (g : GimbalSubsystem P) (now : Z) :
  0 <= MAX_YAW_ERROR constants ->
  0 < YAW_MINIMUM_RADS constants ->
  inputsFound g = true ->
  isMotorOnline (yawMotor g) = true ->
  targetYaw g = wrappedEncoderValueToRadians (getEncoderWrapped (yawMotor g)) ->
  yawError (refresh constants now g) = 0 /\
  yawMotor (refresh constants now g) = setDesiredOutput 0 (yawMotor g) /\
  yawMotorPid (refresh constants now g) = yawMotorPid g.
Proof.
  intros Hmax Hmin Hin Hon Htgt.
  refresh_cases; try congruence;
    match goal with
    | |- context [updateYawPid constants ?x] =>
        assert (Herr : yawError (updateYawPid constants x) = 0)
          by (rewrite updateYawPid_yawError; gsimpl; rewrite Htgt;
              rewrite Rltb_false by lra; rewrite Rltb_false by lra; lra);
        assert (Hzone : inDeadband (YAW_MINIMUM_RADS constants)
                          (yawError (updateYawPid constants x)))
          by (rewrite Herr; unfold inDeadband; lra);
        destruct (updateYawPid_deadzone x Hzone) as (-> & -> & _);
        rewrite Herr; gsimpl; repeat split
    end.
Qed.

(** ** Measured angles stay within one turn *)

Lemma refresh_current_angles (g : GimbalSubsystem P) (now : Z) :
  (currentYaw (refresh constants now g) = currentYaw g \/
   currentYaw (refresh constants now g) =
     wrappedEncoderValueToRadians (getEncoderWrapped (yawMotor g))) /\
  (currentPitch (refresh constants now g) = currentPitch g \/
   currentPitch (refresh constants now g) =
     wrappedEncoderValueToRadians (getEncoderWrapped (pitchMotor g))).
Proof.
  destruct (inputsFound g) eqn:Hin.
  - split.
    + destruct (isMotorOnline (yawMotor g)) eqn:Hon.
      * right. apply (refresh_yaw_online g now Hin Hon).
      * left. apply refresh_yaw_offline, Hon.
    + destruct (isMotorOnline (pitchMotor g)) eqn:Hon.
      * right. apply (refresh_pitch_online g now Hin Hon).
      * left. apply refresh_pitch_offline, Hon.
  - destruct (refresh_no_input g now Hin) as (_ & _ & -> & -> & _). auto.
Qed.

Lemma refresh_encoders (g : GimbalSubsystem P) (now : Z) :
  getEncoderWrapped (yawMotor (refresh constants now g)) =
    getEncoderWrapped (yawMotor g) /\
  getEncoderWrapped (pitchMotor (refresh constants now g)) =
    getEncoderWrapped (pitchMotor g).
Proof.
  split.
  - destruct (refresh_yaw_commands g now) as [-> | ->]; reflexivity.
  - destruct (refresh_pitch_commands g now) as [-> | [-> _]]; reflexivity.
Qed.

Lemma readingsInRange_step (g : GimbalSubsystem P) (e : Event) :
  reportInRange e = true ->
  readingsInRange g -> readingsInRange (step constants g e).
Proof.
  intros He (Hyenc & Hpenc & Hyaw & Hpitch).
  pose proof (wrappedEncoderValueToRadians_inRange _ Hyenc) as Hyconv.
  pose proof (wrappedEncoderValueToRadians_inRange _ Hpenc) as Hpconv.
  unfold readingsInRange.
  destruct e as [ now | now | y p | y p | | o enc rpm | o enc rpm ];
    cbn [step].
  - destruct (initialize_state g now)
      as ((_ & Hcy & _) & (_ & Hcp & _) & Hym & Hpm & _).
    cbv zeta in Hcy, Hcp, Hym, Hpm.
    rewrite Hcy, Hcp, Hym, Hpm. auto.
  - destruct (refresh_encoders g now) as [-> ->].
    destruct (refresh_current_angles g now) as [[-> | ->] [-> | ->]]; auto.
  - auto.
  - auto.
  - auto.
  - cbn [reportInRange] in He. gsimpl. auto.
  - cbn [reportInRange] in He. gsimpl. auto.
Qed.

(** X15: As long as the motors report wrapped encoder values, the measured
    angles stay in [[0, 2 pi)]: this holds in every state reached after
    [initialize], through any sequence of cycles, input calls and
    reports. *)
Theorem current_angles_stay_in_range
  (g0 : GimbalSubsystem P) (t0 : Z) (es : list Event) :
  encoderInRange (getEncoderWrapped (yawMotor g0)) = true ->
  encoderInRange (getEncoderWrapped (pitchMotor g0)) = true ->
  forallb reportInRange es = true ->
  angleInRange (currentYaw (run constants (initialize constants t0 g0) es)) /\
  angleInRange (currentPitch (run constants (initialize constants t0 g0) es)).
Proof.
  intros Hyenc Hpenc Hes.
  assert (Hstart : readingsInRange (initialize constants t0 g0)).
  { pose proof (wrappedEncoderValueToRadians_inRange _ Hyenc) as Hyconv.
    pose proof (wrappedEncoderValueToRadians_inRange _ Hpenc) as Hpconv.
    destruct (initialize_state g0 t0)
      as ((_ & Hcy & _) & (_ & Hcp & _) & Hym & Hpm & _).
    cbv zeta in Hcy, Hcp, Hym, Hpm.
    unfold readingsInRange. rewrite Hcy, Hcp, Hym, Hpm. auto. }
  revert Hes Hstart. generalize (initialize constants t0 g0).
  induction es as [ | e es IH ]; intros g Hes Hinv.
  - destruct Hinv as (_ & _ & Hyaw & Hpitch). auto.
  - cbn [forallb] in Hes. apply andb_prop in Hes as [He Hes].
    change (run constants g (e :: es)) with (run constants (step constants g e) es).
    apply IH; [ exact Hes | ].
    apply readingsInRange_step; assumption.
Qed.

(** ** The pitch axis does not depend on the yaw axis *)

(** Rewriting with every equation between fields at hand. *)
Ltac rewrite_fields :=
  repeat match goal with
         | H : _ = _ |- _ => rewrite ?H; clear H
         end.

Lemma updatePitchPid_pitchAxis (x1 x2 : GimbalSubsystem P) :
  pitchAxis x1 = pitchAxis x2 ->
  timeError x1 = timeError x2 ->
  pitchAxis (updatePitchPid constants x1) = pitchAxis (updatePitchPid constants x2).
Proof.
  unfold pitchAxis. intros Haxis Htime.
  injection Haxis; intros.
  unfold updatePitchPid, gravityCompensation, getPitchMotorRPM; cbn.
  split_tests; congruence.
Qed.

Lemma updateYawPid_pitchAxis (x : GimbalSubsystem P) :
  pitchAxis (updateYawPid constants x) = pitchAxis x.
Proof.
  destruct (updateYawPid_footprint x) as (e & m & c & o & ->).
  reflexivity.
Qed.

(** The pitch side of a cycle, written without the yaw loop. *)
Lemma refresh_pitchAxis (g : GimbalSubsystem P) (now : Z) :
  pitchAxis (refresh constants now g) =
  if inputsFound g then
    if isMotorOnline (pitchMotor g)
    then pitchAxis (updatePitchPid constants (pitchSensed now g))
    else pitchAxis g
  else pitchAxis (set_targetPitch (currentPitch g) g).
Proof.
  unfold refresh, yawOnline, pitchOnline, getYawMotorRPM, getPitchMotorRPM;
    gsimpl.
  destruct (inputsFound g); [ | reflexivity ].
  destruct (isMotorOnline (yawMotor g)).
  - rewrite updateYawPid_pitchMotor; gsimpl.
    destruct (isMotorOnline (pitchMotor g)).
    + apply updatePitchPid_pitchAxis.
      * unfold pitchAxis, pitchSensed; gsimpl.
        destruct (updateYawPid_footprint
                    (set_currentYaw
                       (wrappedEncoderValueToRadians (getEncoderWrapped (yawMotor g)))
                       (set_currentYawMotorSpeed (getMotorRPM (yawMotor g))
                          (set_ledH (negb true)
                             (set_ledA (negb true)
                                (set_pastTime now
                                   (set_timeError (wrap_u32 (now - pastTime g)) g)))))))
          as (e & m & c & o & ->).
        reflexivity.
      * gsimpl. rewrite updateYawPid_timeError. reflexivity.
    + rewrite updateYawPid_pitchAxis. reflexivity.
  - gsimpl. destruct (isMotorOnline (pitchMotor g)).
    + apply updatePitchPid_pitchAxis; reflexivity.
    + reflexivity.
Qed.

(** X16: The pitch axis is decoupled from the yaw axis: two states that
    agree on the pitch axis, the stored clock sample and the input flag
    agree on the pitch axis after a cycle, whatever their yaw targets, yaw
    readings and yaw controller states are. *)
Theorem pitch_axis_independent_of_yaw (g1 g2 : GimbalSubsystem P) (now : Z) :
  pitchAxis g1 = pitchAxis g2 ->
  pastTime g1 = pastTime g2 ->
  inputsFound g1 = inputsFound g2 ->
  pitchAxis (refresh constants now g1) = pitchAxis (refresh constants now g2).
Proof.
  intros Haxis Hpast Hin.
  rewrite !refresh_pitchAxis, Hin.
  assert (Hfields : pitchMotor g1 = pitchMotor g2 /\ currentPitch g1 = currentPitch g2)
    by (unfold pitchAxis in Haxis; injection Haxis; auto).
  destruct Hfields as [Hm Hcur].
  rewrite Hm, Hcur.
  destruct (inputsFound g2); [ destruct (isMotorOnline (pitchMotor g2)) | ].
  - apply updatePitchPid_pitchAxis.
    + unfold pitchAxis, pitchSensed in *; gsimpl.
      injection Haxis; intros. rewrite_fields. reflexivity.
    + unfold pitchSensed; gsimpl. rewrite Hpast. reflexivity.
  - exact Haxis.
  - unfold pitchAxis in *; gsimpl.
    injection Haxis; intros. rewrite_fields. reflexivity.
Qed.

(** ** The yaw axis does not depend on the pitch axis *)

Lemma updateYawPid_yawAxis (x1 x2 : GimbalSubsystem P) :
  yawAxis x1 = yawAxis x2 ->
  timeError x1 = timeError x2 ->
  yawAxis (updateYawPid constants x1) = yawAxis (updateYawPid constants x2).
Proof.
  unfold yawAxis. intros Haxis Htime.
  injection Haxis; intros.
  unfold updateYawPid, getYawMotorRPM; cbn.
  split_tests; congruence.
Qed.

Lemma updatePitchPid_yawAxis (x : GimbalSubsystem P) :
  yawAxis (updatePitchPid constants x) = yawAxis x.
Proof.
  destruct (updatePitchPid_footprint x) as (e & m & c & o & ->).
  reflexivity.
Qed.

(** The yaw side of a cycle, written without the pitch loop. *)
Lemma refresh_yawAxis (g : GimbalSubsystem P) (now : Z) :
  yawAxis (refresh constants now g) =
  if inputsFound g then
    if isMotorOnline (yawMotor g)
    then yawAxis (updateYawPid constants (yawSensed now g))
    else yawAxis g
  else yawAxis (set_targetYaw (currentYaw g) g).
Proof.
  unfold refresh, yawOnline, pitchOnline, getYawMotorRPM, getPitchMotorRPM;
    gsimpl.
  destruct (inputsFound g); [ | reflexivity ].
  assert (Hpitch : forall x : GimbalSubsystem P,
             yawAxis (if isMotorOnline (pitchMotor x)
                      then updatePitchPid constants
                             (set_currentPitch
                                (wrappedEncoderValueToRadians
                                   (getEncoderWrapped (pitchMotor x)))
                                (set_currentPitchMotorSpeed
                                   (getMotorRPM (pitchMotor x)) x))
                      else x) = yawAxis x).
  { intro x. destruct (isMotorOnline (pitchMotor x)); [ | reflexivity ].
    rewrite updatePitchPid_yawAxis. reflexivity. }
  rewrite Hpitch.
  destruct (isMotorOnline (yawMotor g)); [ | reflexivity ].
  apply updateYawPid_yawAxis; reflexivity.
Qed.

(** X17: The yaw axis is decoupled from the pitch axis: two states that
    agree on the yaw axis, the stored clock sample and the input flag agree
    on the yaw axis after a cycle, whatever their pitch targets, pitch
    readings and pitch controller states are. *)
Theorem yaw_axis_independent_of_pitch (g1 g2 : GimbalSubsystem P) (now : Z) :
  yawAxis g1 = yawAxis g2 ->
  pastTime g1 = pastTime g2 ->
  inputsFound g1 = inputsFound g2 ->
  yawAxis (refresh constants now g1) = yawAxis (refresh constants now g2).
Proof.
  intros Haxis Hpast Hin.
  rewrite !refresh_yawAxis, Hin.
  assert (Hfields : yawMotor g1 = yawMotor g2 /\ currentYaw g1 = currentYaw g2)
    by (unfold yawAxis in Haxis; injection Haxis; auto).
  destruct Hfields as [Hm Hcur].
  rewrite Hm, Hcur.
  destruct (inputsFound g2); [ destruct (isMotorOnline (yawMotor g2)) | ].
  - apply updateYawPid_yawAxis.
    + unfold yawAxis, yawSensed in *; gsimpl.
      injection Haxis; intros. rewrite_fields. reflexivity.
    + unfold yawSensed; gsimpl. rewrite Hpast. reflexivity.
  - exact Haxis.
  - unfold yawAxis in *; gsimpl.
    injection Haxis; intros. rewrite_fields. reflexivity.
Qed.

(** ** Edges of the yaw wrap and of the gravity term *)

(** X18: One turn is all [updateYawPid] ever corrects: a raw yaw error more
    than a full turn beyond the threshold is still beyond the threshold
    after the correction, on the same side. *)
Theorem yaw_wrap_corrects_one_turn_only (g : GimbalSubsystem P) :
  0 <= MAX_YAW_ERROR constants ->
  let d := targetYaw g - currentYaw g in
  (MAX_YAW_ERROR constants + 2 * PI < d ->
   yawError (updateYawPid constants g) = d - 2 * PI /\
   MAX_YAW_ERROR constants < yawError (updateYawPid constants g)) /\
  (d < - MAX_YAW_ERROR constants - 2 * PI ->
   yawError (updateYawPid constants g) = d + 2 * PI /\
   yawError (updateYawPid constants g) < - MAX_YAW_ERROR constants).
Proof.
  intros Hmax d.
  pose proof PI_RGT_0 as Hpi.
  rewrite updateYawPid_yawError. fold d. unfold M_TWOPI.
  split; intro Hd.
  - rewrite Rltb_true by lra. lra.
  - rewrite Rltb_false by lra. rewrite Rltb_true by lra. lra.
Qed.

Lemma limitVal_opp (x b : R) :
  0 <= b -> limitVal (- x) (- b) b = - limitVal x (- b) b.
Proof.
  intro Hb. unfold limitVal.
  destruct (Rltb_spec (- x) (- b)), (Rltb_spec b (- x)),
           (Rltb_spec x (- b)), (Rltb_spec b x); lra.
Qed.

(** X19: The gravity term depends on the deviation of the pitch angle from
    [LEVEL_ANGLE] only through its magnitude; it equals the full scalar at
    level, and stays at minus the scalar once the deviation reaches half a
    turn. *)
Theorem gravity_term_shape (g1 g2 : GimbalSubsystem P) :
  (currentPitch g1 - LEVEL_ANGLE constants
     = - (currentPitch g2 - LEVEL_ANGLE constants) ->
   gravityCompensation constants g1 = gravityCompensation constants g2) /\
  (currentPitch g1 = LEVEL_ANGLE constants ->
   gravityCompensation constants g1 = GRAVITY_COMPENSATION_SCALAR constants) /\
  (PI <= Rabs (currentPitch g1 - LEVEL_ANGLE constants) ->
   gravityCompensation constants g1 = - GRAVITY_COMPENSATION_SCALAR constants).
Proof.
  pose proof PI_RGT_0 as Hpi.
  unfold gravityCompensation, M_PI.
  split; [ | split ].
  - intros ->. rewrite limitVal_opp by lra. rewrite cos_neg. reflexivity.
  - intros ->. rewrite limitVal_inside by lra.
    replace (LEVEL_ANGLE constants - LEVEL_ANGLE constants) with 0 by lra.
    rewrite cos_0. lra.
  - intro Hdev. unfold limitVal.
    set (dev := currentPitch g1 - LEVEL_ANGLE constants) in *.
    destruct (Rltb_spec dev (- PI)) as [Hlo | Hlo].
    + rewrite cos_neg, cos_PI. lra.
    + destruct (Rltb_spec PI dev) as [Hhi | Hhi].
      * rewrite cos_PI. lra.
      * assert (Hcases : dev = PI \/ dev = - PI).
        { unfold Rabs in Hdev. destruct (Rcase_abs dev); [ right | left ]; lra. }
        destruct Hcases as [-> | ->]; rewrite ?cos_neg, cos_PI; lra.
Qed.

End GimbalProofs.

(** * The model at work on the example configuration *)

Lemma PI_gt_3 : 3 < PI.
Proof. pose proof PI2_3_2. lra. Qed.

Lemma wrappedEncoderValueToRadians_0 : wrappedEncoderValueToRadians 0 = 0.
Proof. unfold wrappedEncoderValueToRadians, ENC_RESOLUTION. lra. Qed.

(** Deciding the comparisons of a concrete run. *)
Ltac decide_test :=
  match goal with
  | |- context [?a <? ?b] =>
      first [ rewrite (Rltb_true a b) by lra
            | rewrite (Rltb_false a b) by lra ]
  end.

Ltac decide_tests :=
  pose proof PI_gt_3; pose proof PI_4;
  repeat (decide_test; cbn [andb negb]).

(** The facts [initialize] establishes on [constructed]; the initialized
    state is then treated as a state of which only these facts are known. *)
Ltac use_initialize :=
  destruct (initialize_state exampleConstants constructed 0%Z)
    as ((_ & Hcy0 & Hty0) & (_ & Hcp0 & Htp0) & Hym0 & Hpm0 & Hyp0 & Hpp0 & Hin0 & Hpt0);
  cbn [constructed idleMotor yawMotor pitchMotor getEncoderWrapped
       yawMotorPid pitchMotorPid inputsFound]
    in Hcy0, Hty0, Hcp0, Htp0, Hym0, Hpm0, Hyp0, Hpp0, Hin0;
  rewrite wrappedEncoderValueToRadians_0 in Hcy0, Hty0, Hcp0, Htp0.

Ltac forget_initialize :=
  generalize dependent (initialize exampleConstants 0%Z constructed);
  intros initialized; intros.

Lemma inputLost_fields :
  inputsFound inputLost = false /\
  currentYaw inputLost = 0 /\
  targetYaw inputLost = 1.
Proof.
  use_initialize.
  unfold inputLost, run; cbn [fold_left step].
  forget_initialize.
  unfold noInputs, controllerInput; gsimpl.
  rewrite Hcy0, Hty0.
  cbn [YAW_SCALE exampleConstants].
  repeat split; lra.
Qed.


(** The state the pitch loop runs on in the cycle of [trackingTrace]. *)
Lemma trackingTrace_command :
  let g := cvInput 0 1 (initialize exampleConstants 0 constructed) in
  inputsFound g = true /\
  isMotorOnline (pitchMotor g) = true /\
  pitchCommand exampleConstants
    (set_currentPitch
       (wrappedEncoderValueToRadians (getEncoderWrapped (pitchMotor g)))
       (set_timeError (wrap_u32 (10 - pastTime g)) g)) = 120.
Proof.
  use_initialize.
  cbv zeta.
  forget_initialize.
  unfold cvInput; gsimpl.
  rewrite Hpm0; gsimpl.
  split; [ reflexivity | ]. split; [ reflexivity | ].
  unfold pitchCommand, gravityCompensation, getPitchMotorRPM; gsimpl.
  rewrite Hcp0, Hpm0, Hpp0; gsimpl.
  change (getEncoderWrapped idleMotor) with 0%Z.
  rewrite wrappedEncoderValueToRadians_0.
  cbn [runController getOutput EchoController exampleConstants
       MOTOR_SPEED_FACTOR PITCH_MINIMUM_RADS MAX_PITCH_SPEED LEVEL_ANGLE
       GRAVITY_COMPENSATION_SCALAR getMotorRPM setDesiredOutput].
  unfold limitVal, M_TWOPI, M_PI.
  decide_tests.
  replace (0 - 0) with 0 by lra. rewrite cos_0. lra.
Qed.

Lemma pitchDropout_fields :
  inputsFound pitchDropout = true /\
  isMotorOnline (pitchMotor pitchDropout) = false /\
  desiredOutput (pitchMotor pitchDropout) = 120.
Proof.
  pose proof trackingTrace_command as Htrack. cbv zeta in Htrack.
  destruct Htrack as (Hin & Hon & Hcmd).
  pose proof (refresh_pitch_motor exampleConstants _ 10%Z Hin Hon) as Hmotor.
  cbv zeta in Hmotor. destruct Hmotor as [_ Hsent].
  rewrite Hcmd in Hsent.
  assert (Hout : ~ inDeadband (MIN_PITCH_SPEED exampleConstants) 120)
    by (unfold inDeadband; cbn [MIN_PITCH_SPEED exampleConstants]; lra).
  specialize (Hsent Hout).
  pose proof (refresh_inputsFound exampleConstants
                (cvInput 0 1 (initialize exampleConstants 0 constructed)) 10%Z)
    as Hflag.
  rewrite Hin in Hflag.
  unfold pitchDropout, trackingTrace, run; cbn [app fold_left step].
  generalize dependent
    (refresh exampleConstants 10
       (cvInput 0 1 (initialize exampleConstants 0 constructed))).
  intros cycled Hsent Hflag.
  gsimpl. rewrite Hsent.
  split; [ exact Hflag | ]. split; reflexivity.
Qed.

Lemma constructed_gravity :
  gravityCompensation exampleConstants constructed = 20.
Proof.
  unfold gravityCompensation, limitVal, M_PI.
  cbn [constructed currentPitch LEVEL_ANGLE GRAVITY_COMPENSATION_SCALAR
       exampleConstants].
  decide_tests.
  replace (0 - 0) with 0 by lra. rewrite cos_0. lra.
Qed.

(** ** Counterexamples to the claims the code does not meet *)

(** C2: as stated, the claim fails: the pitch motor is offline in this
    cycle, yet its driver still holds the non-zero output of the cycle
    before, because [refresh] gives an offline axis no command at all. *)
Lemma offline_motor_keeps_nonzero_command :
  isMotorOnline (pitchMotor pitchDropout) = false /\
  desiredOutput (pitchMotor (refresh exampleConstants 20 pitchDropout)) <> 0.
Proof.
  destruct pitchDropout_fields as (_ & Hoff & Hout).
  split; [ exact Hoff | ].
  destruct (refresh_pitch_offline exampleConstants pitchDropout 20%Z Hoff)
    as (-> & _).
  rewrite Hout. lra.
Qed.

(** C4: as stated, the claim fails: with [inputsFound] false, [refresh]
    moves the yaw target from 1 back to the current angle 0. *)
Lemma refresh_moves_target_without_input :
  inputsFound inputLost = false /\
  targetYaw (refresh exampleConstants 10 inputLost) <> targetYaw inputLost.
Proof.
  destruct inputLost_fields as (Hin & Hcur & Htgt).
  split; [ exact Hin | ].
  destruct (refresh_no_input exampleConstants inputLost 10%Z Hin) as (-> & _).
  rewrite Hcur, Htgt. lra.
Qed.


(** ** The theorems at concrete inputs *)

Lemma yaw_wrap_correct_witness :
  MAX_YAW_ERROR exampleConstants = PI /\
  0 <= currentYaw wrapExample < 2 * PI /\
  0 <= targetYaw wrapExample < 2 * PI /\
  Rabs (yawError (updateYawPid exampleConstants wrapExample)) <= PI.
Proof.
  pose proof PI_gt_3 as Hpi.
  assert (Hcur : 0 <= currentYaw wrapExample < 2 * PI) by (cbn; lra).
  assert (Htgt : 0 <= targetYaw wrapExample < 2 * PI) by (cbn; lra).
  split; [ reflexivity | ]. split; [ exact Hcur | ]. split; [ exact Htgt | ].
  exact (proj1 (proj2
           (yaw_wrap_correct exampleConstants wrapExample eq_refl Hcur Htgt))).
Defined.

Lemma refresh_output_gating_witness :
  (isMotorOnline (pitchMotor pitchDropout) = false /\
   pitchMotor (refresh exampleConstants 20 pitchDropout) = pitchMotor pitchDropout) /\
  (inputsFound inputLost = false /\
   desiredOutput (yawMotor inputLost) = 0 /\
   desiredOutput (pitchMotor inputLost) = 0).
Proof.
  destruct pitchDropout_fields as (_ & Hoff & _).
  destruct inputLost_fields as (Hin & _).
  destruct (refresh_output_gating exampleConstants) as [Hidle Hcycle].
  split.
  - split; [ exact Hoff | ].
    destruct (Hcycle pitchDropout 20%Z) as (_ & Hpitch & _).
    apply Hpitch. left. exact Hoff.
  - split; [ exact Hin | ].
    exact (Hidle constructed 0%Z [EvControllerInput 1 0; EvNoInputs] Hin).
Defined.

Lemma no_input_stability_witness :
  let g := run exampleConstants constructed trackingTrace in
  let reports := [EvYawReport false 5 0; EvPitchReport true 7 1] in
  let g' := refresh exampleConstants 20 (run exampleConstants (noInputs g) reports) in
  forallb isReport reports = true /\
  targetYaw g' = currentYaw g' /\
  targetPitch g' = currentPitch g' /\
  desiredOutput (yawMotor g') = 0 /\
  desiredOutput (pitchMotor g') = 0.
Proof.
  intros g reports g'.
  assert (Hreports : forallb isReport reports = true) by reflexivity.
  split; [ exact Hreports | ].
  destruct (no_input_stability exampleConstants g reports 20%Z Hreports)
    as (Hty & Htp & Hyo & Hpo & _).
  exact (conj Hty (conj Htp (conj Hyo Hpo))).
Defined.

Lemma no_input_targets_track_current_witness :
  inputsFound inputLost = false /\
  targetYaw (refresh exampleConstants 10 inputLost) = currentYaw inputLost.
Proof.
  destruct inputLost_fields as (Hin & _).
  split; [ exact Hin | ].
  exact (proj1 (no_input_targets_track_current exampleConstants inputLost 10%Z Hin)).
Defined.

Lemma yaw_deadzone_zero_witness :
  let d := targetYaw staleYawExample - currentYaw staleYawExample in
  let e := if MAX_YAW_ERROR exampleConstants <? d then d - M_TWOPI
           else if d <? - MAX_YAW_ERROR exampleConstants then d + M_TWOPI
           else d in
  Rabs e < YAW_MINIMUM_RADS exampleConstants /\
  yawError staleYawExample = 1 /\
  desiredOutput (yawMotor staleYawExample) = 55 /\
  desiredOutput (yawMotor (updateYawPid exampleConstants staleYawExample)) = 0 /\
  yawMotorPid (updateYawPid exampleConstants staleYawExample)
    = yawMotorPid staleYawExample.
Proof.
  intros d e.
  assert (Herr : Rabs e < YAW_MINIMUM_RADS exampleConstants).
  { unfold e, d.
    cbn [staleYawExample set_yawError set_yawMotor targetYaw currentYaw
         constructed MAX_YAW_ERROR YAW_MINIMUM_RADS exampleConstants].
    unfold M_TWOPI. decide_tests.
    replace (0 - 0) with 0 by lra. rewrite Rabs_R0. lra. }
  split; [ exact Herr | ].
  split; [ reflexivity | ]. split; [ reflexivity | ].
  destruct (yaw_deadzone_zero exampleConstants staleYawExample Herr)
    as (_ & _ & Hout & _ & Hpid).
  exact (conj Hout Hpid).
Defined.


Lemma gravity_term_bounded_witness :
  0 <= GRAVITY_COMPENSATION_SCALAR exampleConstants /\
  - 20 <= gravityCompensation exampleConstants constructed <= 20.
Proof.
  assert (Hscalar : 0 <= GRAVITY_COMPENSATION_SCALAR exampleConstants)
    by (cbn; lra).
  split; [ exact Hscalar | ].
  exact (proj2 (gravity_term_bounded exampleConstants constructed) Hscalar).
Defined.

Lemma pitch_deadzone_gravity_only_witness :
  Rabs (targetPitch constructed - currentPitch constructed)
    < PITCH_MINIMUM_RADS exampleConstants /\
  MIN_PITCH_SPEED exampleConstants
    <= Rabs (gravityCompensation exampleConstants constructed) /\
  desiredOutput (pitchMotor (updatePitchPid exampleConstants constructed)) =
    gravityCompensation exampleConstants constructed.
Proof.
  assert (Herr : Rabs (targetPitch constructed - currentPitch constructed)
                 < PITCH_MINIMUM_RADS exampleConstants).
  { cbn. replace (0 - 0) with 0 by lra. rewrite Rabs_R0. lra. }
  assert (Hgrav : MIN_PITCH_SPEED exampleConstants
                  <= Rabs (gravityCompensation exampleConstants constructed)).
  { rewrite constructed_gravity, Rabs_right by lra. cbn. lra. }
  split; [ exact Herr | ]. split; [ exact Hgrav | ].
  destruct (pitch_deadzone_gravity_only exampleConstants constructed Herr)
    as (_ & _ & Hcommand).
  destruct (Hcommand Hgrav) as (_ & Hout & _).
  exact Hout.
Defined.

(** ** The further properties at concrete inputs *)

Lemma wrapExample_yawError :
  yawError (updateYawPid exampleConstants wrapExample) = 6 - 1 / 2 - 2 * PI.
Proof.
  rewrite updateYawPid_yawError.
  cbn [wrapExample set_targetYaw set_currentYaw targetYaw currentYaw
       constructed MAX_YAW_ERROR exampleConstants].
  unfold M_TWOPI. decide_tests. reflexivity.
Qed.

Lemma encoder_angle_range_and_order_witness :
  (0 <= 0)%Z /\ (0 < 4096)%Z /\ (4096 < ENC_RESOLUTION)%Z /\
  wrappedEncoderValueToRadians 0 < wrappedEncoderValueToRadians 4096 /\
  wrappedEncoderValueToRadians 4096 < 2 * PI.
Proof.
  assert (H0 : (0 <= 0)%Z) by lia.
  assert (H1 : (0 < 4096)%Z) by lia.
  assert (H2 : (4096 < ENC_RESOLUTION)%Z) by (unfold ENC_RESOLUTION; lia).
  split; [ exact H0 | ]. split; [ exact H1 | ]. split; [ exact H2 | ].
  exact (proj2 (encoder_angle_range_and_order 0 4096 H0 H1 H2)).
Defined.

Lemma refresh_elapsed_time_witness :
  (0 <= pastTime beforeRollover < 2 ^ 32)%Z /\
  (0 <= 3 < 2 ^ 32)%Z /\
  (3 < pastTime beforeRollover)%Z /\
  timeError (refresh exampleConstants 3 beforeRollover) = 8%Z.
Proof.
  assert (Hpast : (0 <= pastTime beforeRollover < 2 ^ 32)%Z) by (cbn; lia).
  assert (Hnow : (0 <= 3 < 2 ^ 32)%Z) by lia.
  assert (Hroll : (3 < pastTime beforeRollover)%Z) by (cbn; lia).
  split; [ exact Hpast | ]. split; [ exact Hnow | ]. split; [ exact Hroll | ].
  destruct (refresh_elapsed_time exampleConstants beforeRollover 3%Z Hpast Hnow)
    as (_ & _ & _ & Hwrap).
  rewrite (Hwrap Hroll). reflexivity.
Defined.

Lemma calibration_written_once_witness :
  let es := [EvRefresh 10; EvControllerInput 1 0; EvNoInputs; EvRefresh 20] in
  forallb (fun e => negb (isInitialize e)) es = true /\
  startingYaw (run exampleConstants constructed es) = startingYaw constructed.
Proof.
  intro es.
  assert (Hes : forallb (fun e => negb (isInitialize e)) es = true) by reflexivity.
  split; [ exact Hes | ].
  exact (proj1 (calibration_written_once exampleConstants es constructed Hes)).
Defined.

Lemma active_cycle_keeps_targets_witness :
  inputsFound pitchDropout = true /\
  targetPitch (refresh exampleConstants 20 pitchDropout) = targetPitch pitchDropout.
Proof.
  destruct pitchDropout_fields as (Hin & _).
  split; [ exact Hin | ].
  exact (proj2 (active_cycle_keeps_targets exampleConstants pitchDropout 20%Z Hin)).
Defined.

Lemma yaw_output_clamped_witness :
  0 < MAX_YAW_SPEED exampleConstants /\
  ~ inDeadband (YAW_MINIMUM_RADS exampleConstants)
      (yawError (updateYawPid exampleConstants wrapExample)) /\
  - MAX_YAW_SPEED exampleConstants
    <= yawMotorOutput (updateYawPid exampleConstants wrapExample)
    <= MAX_YAW_SPEED exampleConstants.
Proof.
  pose proof PI_gt_3 as Hpi.
  assert (Hmax : 0 < MAX_YAW_SPEED exampleConstants) by (cbn; lra).
  assert (Hout : ~ inDeadband (YAW_MINIMUM_RADS exampleConstants)
                     (yawError (updateYawPid exampleConstants wrapExample))).
  { rewrite wrapExample_yawError. unfold inDeadband.
    cbn [YAW_MINIMUM_RADS exampleConstants]. lra. }
  split; [ exact Hmax | ]. split; [ exact Hout | ].
  exact (proj1 (yaw_output_clamped exampleConstants wrapExample Hmax Hout)).
Defined.

Lemma pitch_command_bounded_witness :
  0 < MAX_PITCH_SPEED exampleConstants /\
  0 <= GRAVITY_COMPENSATION_SCALAR exampleConstants /\
  (pitchMotor (refresh exampleConstants 10 activeExample) = pitchMotor activeExample \/
   exists c : R,
     pitchMotor (refresh exampleConstants 10 activeExample) =
       setDesiredOutput c (pitchMotor activeExample) /\
     ~ inDeadband (MIN_PITCH_SPEED exampleConstants) c /\
     Rabs c <= MAX_PITCH_SPEED exampleConstants
               + GRAVITY_COMPENSATION_SCALAR exampleConstants).
Proof.
  assert (Hmax : 0 < MAX_PITCH_SPEED exampleConstants) by (cbn; lra).
  assert (Hgrav : 0 <= GRAVITY_COMPENSATION_SCALAR exampleConstants) by (cbn; lra).
  split; [ exact Hmax | ]. split; [ exact Hgrav | ].
  exact (pitch_command_bounded exampleConstants activeExample 10%Z Hmax Hgrav).
Defined.

Lemma cvInput_error_within_half_turn_witness :
  MAX_YAW_ERROR exampleConstants = PI /\
  Rabs (yawError (updateYawPid exampleConstants (cvInput 5 0 constructed))) <= PI.
Proof.
  split; [ reflexivity | ].
  exact (proj1 (cvInput_error_within_half_turn
                  exampleConstants constructed 5 0 eq_refl)).
Defined.

Lemma controllerInput_resumes_from_current_witness :
  inputsFound inputLost = false /\
  targetYaw (controllerInput exampleConstants 2 0 (refresh exampleConstants 10 inputLost))
    = currentYaw inputLost + 2 * YAW_SCALE exampleConstants.
Proof.
  destruct inputLost_fields as (Hin & _).
  split; [ exact Hin | ].
  exact (proj1 (controllerInput_resumes_from_current
                  exampleConstants inputLost 10%Z 2 0 Hin)).
Defined.

Lemma initialize_calibrates_witness :
  encoderInRange (getEncoderWrapped (yawMotor constructed)) = true /\
  encoderInRange (getEncoderWrapped (pitchMotor constructed)) = true /\
  angleInRange (currentYaw (initialize exampleConstants 0 constructed)) /\
  desiredOutput (pitchMotor (initialize exampleConstants 0 constructed)) = 0.
Proof.
  assert (Hyaw : encoderInRange (getEncoderWrapped (yawMotor constructed)) = true)
    by reflexivity.
  assert (Hpitch : encoderInRange (getEncoderWrapped (pitchMotor constructed)) = true)
    by reflexivity.
  split; [ exact Hyaw | ]. split; [ exact Hpitch | ].
  destruct (initialize_calibrates exampleConstants constructed 0%Z Hyaw Hpitch)
    as ((_ & _ & _ & Hrange) & _ & _ & Hout & _).
  exact (conj Hrange Hout).
Defined.

Lemma refresh_holds_yaw_at_target_witness :
  0 <= MAX_YAW_ERROR exampleConstants /\
  0 < YAW_MINIMUM_RADS exampleConstants /\
  inputsFound activeExample = true /\
  isMotorOnline (yawMotor activeExample) = true /\
  targetYaw activeExample =
    wrappedEncoderValueToRadians (getEncoderWrapped (yawMotor activeExample)) /\
  yawError (refresh exampleConstants 10 activeExample) = 0.
Proof.
  pose proof PI_gt_3 as Hpi.
  assert (Hmax : 0 <= MAX_YAW_ERROR exampleConstants) by (cbn; lra).
  assert (Hmin : 0 < YAW_MINIMUM_RADS exampleConstants) by (cbn; lra).
  assert (Hin : inputsFound activeExample = true) by reflexivity.
  assert (Hon : isMotorOnline (yawMotor activeExample) = true) by reflexivity.
  assert (Htgt : targetYaw activeExample =
                 wrappedEncoderValueToRadians
                   (getEncoderWrapped (yawMotor activeExample))).
  { symmetry. exact wrappedEncoderValueToRadians_0. }
  split; [ exact Hmax | ]. split; [ exact Hmin | ]. split; [ exact Hin | ].
  split; [ exact Hon | ]. split; [ exact Htgt | ].
  exact (proj1 (refresh_holds_yaw_at_target
                  exampleConstants activeExample 10%Z Hmax Hmin Hin Hon Htgt)).
Defined.

Lemma current_angles_stay_in_range_witness :
  let es := [EvYawReport true 100 0; EvCvInput 0 1; EvRefresh 10;
             EvPitchReport true 8191 0; EvRefresh 20] in
  encoderInRange (getEncoderWrapped (yawMotor constructed)) = true /\
  encoderInRange (getEncoderWrapped (pitchMotor constructed)) = true /\
  forallb reportInRange es = true /\
  angleInRange
    (currentYaw (run exampleConstants (initialize exampleConstants 0 constructed) es)).
Proof.
  intro es.
  assert (Hyaw : encoderInRange (getEncoderWrapped (yawMotor constructed)) = true)
    by reflexivity.
  assert (Hpitch : encoderInRange (getEncoderWrapped (pitchMotor constructed)) = true)
    by reflexivity.
  assert (Hes : forallb reportInRange es = true) by reflexivity.
  split; [ exact Hyaw | ]. split; [ exact Hpitch | ]. split; [ exact Hes | ].
  exact (proj1 (current_angles_stay_in_range
                  exampleConstants constructed 0%Z es Hyaw Hpitch Hes)).
Defined.

Lemma pitch_axis_independent_of_yaw_witness :
  let g1 := activeExample in
  let g2 := set_yawMotorPid 7 (set_targetYaw 3 activeExample) in
  pitchAxis g1 = pitchAxis g2 /\
  pastTime g1 = pastTime g2 /\
  inputsFound g1 = inputsFound g2 /\
  pitchAxis (refresh exampleConstants 10 g1) = pitchAxis (refresh exampleConstants 10 g2).
Proof.
  intros g1 g2.
  assert (Haxis : pitchAxis g1 = pitchAxis g2) by reflexivity.
  assert (Hpast : pastTime g1 = pastTime g2) by reflexivity.
  assert (Hin : inputsFound g1 = inputsFound g2) by reflexivity.
  split; [ exact Haxis | ]. split; [ exact Hpast | ]. split; [ exact Hin | ].
  exact (pitch_axis_independent_of_yaw exampleConstants g1 g2 10%Z Haxis Hpast Hin).
Defined.

Lemma yaw_axis_independent_of_pitch_witness :
  let g1 := activeExample in
  let g2 := set_pitchMotorPid 7 (set_targetPitch 1 activeExample) in
  yawAxis g1 = yawAxis g2 /\
  pastTime g1 = pastTime g2 /\
  inputsFound g1 = inputsFound g2 /\
  yawAxis (refresh exampleConstants 10 g1) = yawAxis (refresh exampleConstants 10 g2).
Proof.
  intros g1 g2.
  assert (Haxis : yawAxis g1 = yawAxis g2) by reflexivity.
  assert (Hpast : pastTime g1 = pastTime g2) by reflexivity.
  assert (Hin : inputsFound g1 = inputsFound g2) by reflexivity.
  split; [ exact Haxis | ]. split; [ exact Hpast | ]. split; [ exact Hin | ].
  exact (yaw_axis_independent_of_pitch exampleConstants g1 g2 10%Z Haxis Hpast Hin).
Defined.

Lemma yaw_wrap_corrects_one_turn_only_witness :
  let g := set_targetYaw 13 constructed in
  0 <= MAX_YAW_ERROR exampleConstants /\
  MAX_YAW_ERROR exampleConstants + 2 * PI < targetYaw g - currentYaw g /\
  MAX_YAW_ERROR exampleConstants < yawError (updateYawPid exampleConstants g).
Proof.
  intro g.
  pose proof PI_gt_3 as Hpi. pose proof PI_4 as Hpi4.
  assert (Hmax : 0 <= MAX_YAW_ERROR exampleConstants) by (cbn; lra).
  assert (Hfar : MAX_YAW_ERROR exampleConstants + 2 * PI
                 < targetYaw g - currentYaw g) by (cbn; lra).
  split; [ exact Hmax | ]. split; [ exact Hfar | ].
  exact (proj2 (proj1 (yaw_wrap_corrects_one_turn_only exampleConstants g Hmax)
                  Hfar)).
Defined.

Lemma gravity_term_shape_witness :
  currentPitch constructed = LEVEL_ANGLE exampleConstants /\
  gravityCompensation exampleConstants constructed
    = GRAVITY_COMPENSATION_SCALAR exampleConstants.
Proof.
  assert (Hlevel : currentPitch constructed = LEVEL_ANGLE exampleConstants)
    by reflexivity.
  split; [ exact Hlevel | ].
  exact (proj1 (proj2 (gravity_term_shape exampleConstants constructed constructed))
           Hlevel).
Defined.
